(** * aws_chain_secrets.secrets_manager: layered secret lookup

    A shallow embedding of [SecretsManager]
    (src/aws_chain_secrets/secrets_manager.py) and the properties of its
    precedence, lookup, refresh and write-back operations.

    Python objects that the class mutates in place (the per-secret [dict]s
    shared between [self._secrets] and the [ChainMap] [self._combined]) live
    in an explicit object store and are referred to by address, so that the
    aliasing built by [__init__] is part of the model. *)

From Stdlib Require Import ZArith Ascii String.
From stdpp Require Import base option list gmap strings.

Set Warnings "-register-all,-clear-no-such-hyp".
Open Scope string_scope.
Open Scope list_scope.

(** ** Python values *)

(** An IEEE-754 binary64 number, the representation of a Python [float]:
    [Finite neg m e] stands for (-1)^neg * m * 2^e. Normal numbers are kept
    with 2^52 <= m < 2^53, subnormal ones with e = -1074. *)
Inductive float64 :=
  | Finite (neg : bool) (m : Z) (e : Z)
  | Infinity (neg : bool)
  | NaN.

(** The values a secret can hold (anything [json.loads] produces), together
    with instances of the marker class [Null] of the module. *)
Inductive pyval :=
  | PyNone
  | PyBool (b : bool)
  | PyInt (n : Z)
  | PyFloat (x : float64)
  | PyStr (s : string)
  | PyList (l : list pyval)
  | PyDict (d : gmap string pyval)
  | NullInstance.

(** [null = Null()]: the module-level marker used as "no default given". *)
Definition null : pyval := NullInstance.

(** [isinstance(v, Null)] *)
Definition isinstance_Null (v : pyval) : bool :=
  match v with NullInstance => true | _ => false end.

(** The [casting_type] argument of [get]: the target shapes of the spec
    (text, integer, floating-point, boolean, pass-through). *)
Inductive casting_type := py_str | py_int | py_float | py_bool | pass_through.

(** Exceptions that cross the methods of the class. *)
Inductive exn :=
  | KeyError (arg : string)
  | ClientError (code : string)
  | SecretsManagerException_from_code (code : string)
  | CastError
  | JSONDecodeError
  | TypeError
  | binascii_Error.

(** ** The caster *)

Module caster.

(** What the text of the spec fixes about a call of [cast]: its result,
    the error it fails with, or nothing. *)
Inductive outcome :=
  | Returns (v : pyval)
  | Raises (e : exn)
  | Unspecified.

Definition is_digit (c : ascii) : bool :=
  let n := nat_of_ascii c in (48 <=? n)%nat && (n <=? 57)%nat.

Definition digit_value (c : ascii) : Z := Z.of_nat (nat_of_ascii c) - 48.

(** ASCII lower-casing, as [str.lower] acts on ASCII text. *)
Definition lower_ascii (c : ascii) : ascii :=
  let n := nat_of_ascii c in
  if (65 <=? n)%nat && (n <=? 90)%nat then ascii_of_nat (n + 32) else c.

Fixpoint lower (s : string) : string :=
  match s with
  | EmptyString => EmptyString
  | String c r => String (lower_ascii c) (lower r)
  end.

(** The spellings every implementation has to recognise. *)
Definition booleans : list (string * bool) :=
  [("true", true); ("false", false); ("1", true); ("0", false);
   ("yes", true); ("no", false)].

Fixpoint table_lookup (t : list (string * bool)) (s : string) : option bool :=
  match t with
  | [] => None
  | (k, b) :: r => if String.eqb k s then Some b else table_lookup r s
  end.

(** Value of a run of decimal digits; [None] when another character occurs. *)
Fixpoint digits_value (acc : Z) (s : string) : option Z :=
  match s with
  | EmptyString => Some acc
  | String c r =>
      if is_digit c then digits_value (10 * acc + digit_value c) r else None
  end.

Definition split_sign (s : string) : bool * string :=
  match s with
  | String "-" r => (true, r)
  | String "+" r => (false, r)
  | _ => (false, s)
  end.

(** An optional sign, then one or more digits. *)
Definition parse_integer (s : string) : option Z :=
  let '(neg, body) := split_sign s in
  match body with
  | EmptyString => None
  | _ => n ← digits_value 0 body; Some (if neg then (- n)%Z else n)
  end.

(** Splits at the first "." when there is one. *)
Fixpoint split_point (s : string) : string * option string :=
  match s with
  | EmptyString => (EmptyString, None)
  | String "." r => (EmptyString, Some r)
  | String c r => let '(a, b) := split_point r in (String c a, b)
  end.

(** An optional sign, then digits with at most one "." among them and at
    least one digit; read as [(neg, n, k)]: the number (-1)^neg * n / 10^k. *)
Definition parse_decimal (s : string) : option (bool * Z * nat) :=
  let '(neg, body) := split_sign s in
  let '(int_part, frac) := split_point body in
  let frac_part := default EmptyString frac in
  match String.append int_part frac_part with
  | EmptyString => None
  | digits => n ← digits_value 0 digits; Some (neg, n, String.length frac_part)
  end.

(** Rounds p/q (p >= 0, q > 0) to an integer, ties to even. *)
Definition round_half_even (p q : Z) : Z :=
  let d := (p / q)%Z in
  let r := (p mod q)%Z in
  if (2 * r <? q)%Z then d
  else if (q <? 2 * r)%Z then (d + 1)%Z
  else if Z.even d then d else (d + 1)%Z.

(** p/q scaled by 2^(-e), rounded to an integer. *)
Definition scaled_round (p q e : Z) : Z :=
  if (0 <=? e)%Z then round_half_even p (q * 2 ^ e)
  else round_half_even (p * 2 ^ (- e)) q.

(** floor (log2 (p/q)) for p, q > 0. *)
Definition ratio_log2 (p q : Z) : Z :=
  let a := (Z.log2 p - Z.log2 q)%Z in
  let below :=
    if (0 <=? a)%Z then (p <? q * 2 ^ a)%Z else (p * 2 ^ (- a) <? q)%Z in
  if below then (a - 1)%Z else a.

(** The binary64 number nearest to (-1)^neg * p/q, ties to even: what
    [float(text)] yields for decimal text and [float(n)] for an integer. *)
Definition float_of_ratio (neg : bool) (p q : Z) : float64 :=
  if (p =? 0)%Z then Finite neg 0 0
  else
    let e := Z.max (ratio_log2 p q - 52) (-1074) in
    let m := scaled_round p q e in
    let '(m, e) := if (m =? 2 ^ 53)%Z then (2 ^ 52, e + 1)%Z else (m, e) in
    if (971 <? e)%Z then Infinity neg
    else if (m =? 0)%Z then Finite neg 0 0
    else Finite neg m e.

(** Modelled from the spec: the boolean case of [caster.cast], which is not
    among the sources (section 4.2, "Boolean casting from text"). *)
Definition cast_bool (more : list (string * bool)) (value : pyval) : outcome :=
  match value with
  | PyStr s =>
      match table_lookup (booleans ++ more) (lower s) with
      | Some b => Returns (PyBool b)
      | None => Raises CastError
      end
  | _ => Unspecified
  end.

(** Modelled from the spec: the integer case of [caster.cast], which is not
    among the sources (section 4.2, "Numeric casting"). *)
Definition cast_int (value : pyval) : outcome :=
  match value with
  | PyStr s =>
      match parse_integer s, parse_decimal s with
      | Some n, _ => Returns (PyInt n)
      | None, Some _ => Unspecified
      | None, None => Raises CastError
      end
  | PyInt n => Returns (PyInt n)
  | PyFloat _ | PyBool _ => Unspecified
  | PyList _ | PyDict _ | PyNone | NullInstance => Raises CastError
  end.

(** Modelled from the spec: the floating-point case of [caster.cast], which
    is not among the sources (section 4.2, "Numeric casting"). *)
Definition cast_float (value : pyval) : outcome :=
  match value with
  | PyStr s =>
      match parse_decimal s with
      | Some (neg, n, k) => Returns (PyFloat (float_of_ratio neg n (10 ^ Z.of_nat k)))
      | None => Raises CastError
      end
  | PyFloat x => Returns (PyFloat x)
  | PyInt _ | PyBool _ => Unspecified
  | PyList _ | PyDict _ | PyNone | NullInstance => Raises CastError
  end.

(** Modelled from the spec: the text case of [caster.cast], which is not
    among the sources (section 4.2, "Casting a structured value"). *)
Definition cast_str (value : pyval) : outcome :=
  match value with
  | PyStr s => Returns (PyStr s)
  | PyList _ | PyDict _ => Raises CastError
  | _ => Unspecified
  end.

(** Modelled from the spec: [aws_chain_secrets.caster.cast], imported by
    secrets_manager.py but not part of the sources at hand. The definition
    follows section 4.2 of the specification and decides nothing that the
    text leaves open:
    - pass-through is the identity;
    - text cast to a boolean is looked up, lower-cased, among
      true/false, 1/0, yes/no and any further spellings [more] an
      implementation recognises ("at least"); other text fails with
      [CastError];
    - a numeric cast of text in decimal notation yields the number, of a
      value that already has the requested numeric shape the value itself,
      and fails with [CastError] on other text and on values that are
      neither text nor numbers ("numeric-looking" is read as plain decimal
      notation: a sign, digits and, for floats, a fractional part);
    - a list or mapping cast to text or to a number fails with [CastError];
    - text cast to text is the text.
    Every other combination (a number to text, a float to an integer, a
    boolean to a number, ...) is [Unspecified]. *)
Definition cast (more : list (string * bool)) (value : pyval)
    (casting_type : casting_type) : outcome :=
  match casting_type with
  | pass_through => Returns value
  | py_bool => cast_bool more value
  | py_int => cast_int value
  | py_float => cast_float value
  | py_str => cast_str value
  end.

End caster.

(** ** What the class is given from outside *)

(** The collaborators of the module that are no part of its sources: the
    caster of the package, and the library functions it calls. Decoders
    return the mapping a payload holds; [_get_secrets] is annotated
    [-> dict], and payloads that decode to something else than a JSON object
    are outside this model. *)
Class Externals := {
  (** [aws_chain_secrets.caster.cast] *)
  cast : pyval → casting_type → exn + pyval;
  (** [repr] *)
  repr : pyval → string;
  (** [json.loads] *)
  json_loads : string → exn + gmap string pyval;
  (** [json.dumps] *)
  json_dumps : gmap string pyval → exn + string;
  (** [base64.b64decode] *)
  b64decode : string → exn + string
}.

(** The answer of [get_secret_value]: a mapping with the entry
    'SecretString' or 'SecretBinary'. *)
Record response := {
  SecretString : option string;
  SecretBinary : option string
}.

(** The boto3 client held by the base class [Client] as [self._client]:
    what [get_secret_value] answers or raises for a name, what
    [update_secret] raises if anything, and the [update_secret] calls
    received so far. A failure reported by the store is a [ClientError]
    carrying the error code. *)
Record client := {
  get_secret_value : string → exn + response;
  update_secret : string → string → option exn;
  update_secret_calls : list (string * string)
}.

(** ** The object store and the instance *)

(** [heap] holds the [dict] objects allocated by [__init__], by address;
    [_secrets] (an insertion-ordered [dict]) and [_combined] (the [maps] of
    the [ChainMap]) hold addresses, not copies. *)
Record state := {
  heap : list (gmap string pyval);
  secret_names : list string;
  _secrets : list (string * nat);
  _combined : list nat;
  _client : client
}.

Definition set_heap (h : list (gmap string pyval)) (st : state) : state :=
  {| heap := h; secret_names := secret_names st; _secrets := _secrets st;
     _combined := _combined st; _client := _client st |}.

Definition set_client (c : client) (st : state) : state :=
  {| heap := heap st; secret_names := secret_names st; _secrets := _secrets st;
     _combined := _combined st; _client := c |}.

(** Insertion-ordered [dict] with string keys: [d[k]] and [d[k] = v]. An
    assignment to a key already present keeps the key in its place. *)
Fixpoint odict_get {V} (d : list (string * V)) (k : string) : option V :=
  match d with
  | [] => None
  | (k', v) :: r => if decide (k' = k) then Some v else odict_get r k
  end.

Fixpoint odict_set {V} (d : list (string * V)) (k : string) (v : V)
    : list (string * V) :=
  match d with
  | [] => [(k, v)]
  | (k', v') :: r =>
      if decide (k' = k) then (k', v) :: r else (k', v') :: odict_set r k v
  end.

(** ** Computations that may raise *)

(** A method runs on a state and ends with a result or an exception; the
    effects made before an exception is raised stay. *)
Definition M (A : Type) : Type := state → (exn + A) * state.

Definition ret {A} (a : A) : M A := λ st, (inr a, st).
Definition raise {A} (e : exn) : M A := λ st, (inl e, st).
Definition bind {A B} (m : M A) (k : A → M B) : M B :=
  λ st, match m st with
        | (inr a, st') => k a st'
        | (inl e, st') => (inl e, st')
        end.
Definition lift {A} (r : exn + A) : M A := λ st, (r, st).

(** [try: a = m / except KeyError: handler / else: body a] *)
Definition try_except_KeyError {A B} (m : M A) (handler : M B) (body : A → M B)
    : M B :=
  λ st, match m st with
        | (inr a, st') => body a st'
        | (inl (KeyError _), st') => handler st'
        | (inl e, st') => (inl e, st')
        end.

Declare Scope M_scope.
Delimit Scope M_scope with M.
Notation "x <- m ;; k" := (bind m (λ x, k))
  (at level 100, m at next level, right associativity) : M_scope.
Notation "m ;;; k" := (bind m (λ _, k))
  (at level 100, right associativity) : M_scope.

Module SecretsManager.
Section methods.
Context {env : Externals}.
Open Scope M_scope.

(** One turn of [{secret_name: {} for secret_name in secret_names}]: a new
    empty [dict] is allocated and bound to the name. *)
Definition init_step (acc : list (gmap string pyval) * list (string * nat))
    (secret_name : string) : list (gmap string pyval) * list (string * nat) :=
  (acc.1 ++ [∅], odict_set acc.2 secret_name (length acc.1)).

(** [__init__]; the region and the credentials only reach the base class
    [Client], which builds the boto3 client [c]. [ChainMap()] without
    arguments holds one new empty [dict]. *)
Definition __init__ (c : client) (secret_names : list string) : state :=
  let '(h, secrets) := foldl init_step ([], []) secret_names in
  let maps := reverse secrets.*2 in
  let '(h, maps) :=
    match maps with [] => (h ++ [∅], [length h]) | _ => (h, maps) end in
  {| heap := h; secret_names := secret_names; _secrets := secrets;
     _combined := maps; _client := c |}.

(** [self._secrets[secret_name]] *)
Definition _secrets_getitem (secret_name : string) : M nat :=
  λ st, match odict_get (_secrets st) secret_name with
        | Some d => (inr d, st)
        | None => (inl (KeyError secret_name), st)
        end.

(** [d[key] = value], [d.clear()] and [d.update(other)] on the [dict] at
    address [d]. *)
Definition dict_setitem (d : nat) (key : string) (value : pyval) : M unit :=
  λ st, (inr (), set_heap (<[d := <[key := value]> (heap st !!! d)]> (heap st)) st).

Definition dict_clear (d : nat) : M unit :=
  λ st, (inr (), set_heap (<[d := ∅]> (heap st)) st).

Definition dict_update (d : nat) (other : gmap string pyval) : M unit :=
  λ st, (inr (), set_heap (<[d := other ∪ (heap st !!! d)]> (heap st)) st).

(** [ChainMap.__getitem__]: the first of [maps] that has the key. *)
Fixpoint chain_lookup (h : list (gmap string pyval)) (maps : list nat)
    (key : string) : option pyval :=
  match maps with
  | [] => None
  | d :: rest =>
      match (h !!! d) !! key with
      | Some value => Some value
      | None => chain_lookup h rest key
      end
  end.

(** [self._combined[key]] *)
Definition _combined_getitem (key : string) : M pyval :=
  λ st, match chain_lookup (heap st) (_combined st) key with
        | Some value => (inr value, st)
        | None => (inl (KeyError key), st)
        end.

Definition not_found_message (key : string) : string :=
  repr (PyStr key) +:+ " not found. Please check secret value in AWS Secrets Manager.".

Definition get (key : string) (default : pyval) (casting_type : casting_type)
    : M pyval :=
  try_except_KeyError (_combined_getitem key)
    (if isinstance_Null default
     then raise (KeyError (not_found_message key))
     else ret default)
    (λ value, lift (cast value casting_type)).

Definition __call__ (key : string) (default : pyval)
    (casting_type : casting_type) : M pyval :=
  get key default casting_type.

Definition set (secret_name key : string) (value : pyval) : M unit :=
  d <- _secrets_getitem secret_name ;;
  dict_setitem d key value.

Definition _get_secrets (secret_name : string) : M (gmap string pyval) :=
  λ st, match get_secret_value (_client st) secret_name with
        | inl (ClientError code) =>
            (inl (SecretsManagerException_from_code code), st)
        | inl e => (inl e, st)
        | inr response =>
            match SecretString response with
            | Some text => (json_loads text, st)
            | None =>
                match SecretBinary response with
                | None => (inl (KeyError "SecretBinary"), st)
                | Some data =>
                    match b64decode data with
                    | inl e => (inl e, st)
                    | inr text => (json_loads text, st)
                    end
                end
            end
        end.

(** The body of the loop of [fetch], over the names still to visit. *)
Fixpoint fetch_loop (names : list string) : M unit :=
  match names with
  | [] => ret ()
  | secret_name :: rest =>
      (d <- _secrets_getitem secret_name ;; dict_clear d) ;;;
      (d <- _secrets_getitem secret_name ;;
       new <- _get_secrets secret_name ;;
       dict_update d new) ;;;
      fetch_loop rest
  end.

Definition fetch : M unit := λ st, fetch_loop (secret_names st) st.

(** [self._client.update_secret(SecretId=..., SecretString=...)] *)
Definition client_update_secret (SecretId SecretString : string) : M unit :=
  λ st,
    let c := _client st in
    let c' := {| get_secret_value := get_secret_value c;
                 update_secret := update_secret c;
                 update_secret_calls :=
                   update_secret_calls c ++ [(SecretId, SecretString)] |} in
    match update_secret c SecretId SecretString with
    | Some e => (inl e, set_client c' st)
    | None => (inr (), set_client c' st)
    end.

(** [update]. The model describes an instance whose client is at hand, as
    inside the [with] block: the attribute [self._client.update_secret],
    which line 101 reads before it looks the name up, is then read without
    effect, and the lookup of the name is the first step that can fail. *)
Definition update (secret_name : string) : M unit :=
  d <- _secrets_getitem secret_name ;;
  payload <- (λ st, (json_dumps (heap st !!! d), st)) ;;
  client_update_secret secret_name payload.

(** [ChainMap.__iter__]: the keys of all [maps], gathered from the last map
    to the first. Python yields them in the order of its [dict]s, which the
    finite maps of the object store do not record: a view is modelled by
    what it holds, not by the order in which it yields. *)
Definition ChainMap_iter (h : list (gmap string pyval)) (maps : list nat)
    : gset string :=
  foldl (λ d m, d ∪ dom (h !!! m)) ∅ (reverse maps).

(** [keys()]: the keys of [self._combined]. *)
Definition keys (st : state) : gset string :=
  ChainMap_iter (heap st) (_combined st).

(** [items()]: for every key of [self._combined], the key with
    [self._combined[key]], as [ItemsView] yields them. *)
Definition items (st : state) : list (string * pyval) :=
  omap (λ key, (key,.) <$> chain_lookup (heap st) (_combined st) key)
    (elements (keys st)).

(** [values()]: for every key of [self._combined], [self._combined[key]],
    as [ValuesView] yields them. *)
Definition values (st : state) : list pyval :=
  omap (λ key, chain_lookup (heap st) (_combined st) key) (elements (keys st)).

End methods.
End SecretsManager.

(** ** Observations on a state *)

Section observations.
Context {env : Externals}.

(** The content of the bundle declared under [secret_name]. *)
Definition bundle (st : state) (secret_name : string)
    : option (gmap string pyval) :=
  d ← odict_get (_secrets st) secret_name; heap st !! d.

(** The merged view: what [self._combined] holds under [key]. *)
Definition merged (st : state) (key : string) : option pyval :=
  SecretsManager.chain_lookup (heap st) (_combined st) key.

(** What [_get_secrets] ends with for [secret_name]: the mapping stored
    remotely, or the failure of the fetch. *)
Definition fetched (st : state) (secret_name : string)
    : exn + gmap string pyval :=
  (SecretsManager._get_secrets secret_name st).1.

(** The store holds [mapping] for [secret_name]: [get_secret_value] answers,
    and the answer carries the mapping as JSON text under 'SecretString'
    or, without that entry, base64-encoded under 'SecretBinary'. *)
Definition remotely_stored (st : state) (secret_name : string)
    (mapping : gmap string pyval) : Prop :=
  ∃ response,
    get_secret_value (_client st) secret_name = inr response ∧
    match SecretString response, SecretBinary response with
    | Some text, _ => json_loads text = inr mapping
    | None, Some data =>
        ∃ text, b64decode data = inr text ∧ json_loads text = inr mapping
    | None, None => False
    end.

(** The names in the order in which a [dict] built from them keeps its
    keys: a repeated name stays where it occurred first. *)
Definition declared_order (names : list string) : list string :=
  foldl (λ acc n, if decide (n ∈ acc) then acc else acc ++ [n]) [] names.

(** The states an instance goes through: built by [__init__], changed by
    its methods, while the store behind the client may change at any time. *)
Inductive reachable : state → Prop :=
  | reachable_init c names :
      reachable (SecretsManager.__init__ c names)
  | reachable_set st secret_name key value :
      reachable st →
      reachable (SecretsManager.set secret_name key value st).2
  | reachable_fetch st :
      reachable st → reachable (SecretsManager.fetch st).2
  | reachable_update st secret_name :
      reachable st → reachable (SecretsManager.update secret_name st).2
  | reachable_get st key default casting_type :
      reachable st →
      reachable (SecretsManager.get key default casting_type st).2
  | reachable_store st c :
      reachable st → reachable (set_client c st).

(** What holds of every reachable state. *)
Record wf (st : state) : Prop := {
  wf_names : (_secrets st).*1 = declared_order (secret_names st);
  wf_nodup : NoDup (_secrets st).*2;
  wf_bound : ∀ d, d ∈ (_secrets st).*2 → d < length (heap st);
  wf_chain :
    (_secrets st ≠ [] ∧ _combined st = reverse (_secrets st).*2) ∨
    (_secrets st = [] ∧ ∃ d, _combined st = [d] ∧ heap st !!! d = ∅)
}.

(** [st'] differs from [st] in the content of declared bundles and in the
    client only. *)
Record frame (st st' : state) : Prop := {
  frame_names : secret_names st' = secret_names st;
  frame_secrets : _secrets st' = _secrets st;
  frame_combined : _combined st' = _combined st;
  frame_length : length (heap st') = length (heap st);
  frame_other : ∀ d, d ∉ (_secrets st).*2 → heap st' !!! d = heap st !!! d
}.

(** The caster of the environment meets the specification: wherever
    [caster.cast] fixes the result or the failure, [cast] has it. *)
Definition conforms (more : list (string * bool)) : Prop :=
  ∀ value casting_type,
    match caster.cast more value casting_type with
    | caster.Returns v => cast value casting_type = inr v
    | caster.Raises e => cast value casting_type = inl e
    | caster.Unspecified => True
    end.

End observations.

(** ** A concrete environment and concrete instances *)

(** A caster that follows [caster.cast] wherever the text of the spec
    decides, and fails elsewhere. *)
Definition example_cast (value : pyval) (casting_type : casting_type)
    : exn + pyval :=
  match caster.cast [] value casting_type with
  | caster.Returns v => inr v
  | caster.Raises e => inl e
  | caster.Unspecified => inl TypeError
  end.

(** Three documents and their content, standing for a JSON decoder; the
    encoder of the examples lists the keys. *)
Definition example_documents : list (string * gmap string pyval) :=
  [("doc:empty", ∅);
   ("doc:b3", {["b" := PyInt 3]});
   ("doc:a1b2", {["a" := PyInt 1; "b" := PyInt 2]})].

Definition example_externals : Externals := {|
  cast := example_cast;
  repr := λ v, match v with PyStr s => "'" +:+ s +:+ "'" | _ => "<object>" end;
  json_loads := λ text,
    match odict_get example_documents text with
    | Some g => inr g
    | None => inl JSONDecodeError
    end;
  json_dumps := λ g, inr ("keys:" +:+ String.concat "," (map_to_list g).*1);
  b64decode := λ data, inr data
|}.

(** A client whose store answers with the listed secret strings, and raises
    ResourceNotFoundException for every other name. *)
Definition example_client (stored : list (string * string)) : client := {|
  get_secret_value := λ SecretId,
    match odict_get stored SecretId with
    | Some text => inr {| SecretString := Some text; SecretBinary := None |}
    | None => inl (ClientError "ResourceNotFoundException")
    end;
  update_secret := λ _ _, None;
  update_secret_calls := []
|}.

(** The scenario of the specification: [base = {a: 1, b: 2}] and
    [override = {b: 3}], declared in this order, written locally. *)
Definition example_layers : state :=
  let st := SecretsManager.__init__ (example_client []) ["base"; "override"] in
  let st := (SecretsManager.set "base" "a" (PyInt 1) st).2 in
  let st := (SecretsManager.set "base" "b" (PyInt 2) st).2 in
  (SecretsManager.set "override" "b" (PyInt 3) st).2.

(** The same two bundles, the store holding [base] only. *)
Definition example_partial_store : state :=
  set_client (example_client [("base", "doc:a1b2")]) example_layers.

(** The same two bundles, the store holding both. *)
Definition example_full_store : state :=
  set_client (example_client [("base", "doc:empty"); ("override", "doc:b3")])
    example_layers.

(** The same two bundles, behind a store that refuses every write. *)
Definition example_denying_store : state :=
  set_client
    {| get_secret_value := λ _, inl (ClientError "AccessDeniedException");
       update_secret := λ _ _, Some (ClientError "AccessDeniedException");
       update_secret_calls := [] |}
    example_layers.

(** The same two bundles, the store holding an empty [base] only. *)
Definition example_empty_base_store : state :=
  set_client (example_client [("base", "doc:empty")]) example_layers.

(** The same two bundles, the store holding for [override] a text that is
    no document. *)
Definition example_corrupt_store : state :=
  set_client
    (example_client [("base", "doc:a1b2"); ("override", "no document")])
    example_layers.

(** The same two bundles, the store holding [base = {b: 3}] and
    [override = {a: 1, b: 2}]: for each name another mapping than the
    bundle holds. *)
Definition example_swapped_store : state :=
  set_client (example_client [("base", "doc:b3"); ("override", "doc:a1b2")])
    example_layers.

(** An instance built with a name given twice. *)
Definition example_repeated : state :=
  let st := SecretsManager.__init__ (example_client []) ["a"; "b"; "a"] in
  let st := (SecretsManager.set "a" "k" (PyStr "1") st).2 in
  (SecretsManager.set "b" "k" (PyStr "2") st).2.

(** Closing a goal on a concrete instance by evaluation, and splitting the
    membership of a name in a literal list. *)
Ltac by_computation := vm_compute; first [reflexivity | done].
Ltac names_cases H :=
  repeat (apply elem_of_cons in H as [->|H]); [..|by apply elem_of_nil in H].

(** ** Insertion-ordered dictionaries *)

Section odict.
Context {V : Type}.
Implicit Types (d : list (string * V)) (k : string) (v : V).

Lemma odict_set_keys d k v :
  (odict_set d k v).*1 = if decide (k ∈ d.*1) then d.*1 else d.*1 ++ [k].
Proof.
  induction d as [|[k' v'] d IH]; [done|]. cbn [odict_set].
  destruct (decide (k' = k)) as [->|Hne]; csimpl.
  - rewrite decide_True; [done | apply elem_of_cons; by left].
  - rewrite IH. destruct (decide (k ∈ d.*1)) as [Hin|Hnin].
    + rewrite decide_True; [done | apply elem_of_cons; by right].
    + rewrite decide_False; [done |].
      intros [->|?]%elem_of_cons; done.
Qed.

Lemma odict_set_values d k v x :
  x ∈ (odict_set d k v).*2 → x = v ∨ x ∈ d.*2.
Proof.
  induction d as [|[k' v'] d IH]; simpl.
  - intros ?%list_elem_of_singleton. by left.
  - destruct (decide (k' = k)); simpl; rewrite !elem_of_cons; naive_solver.
Qed.

Lemma odict_set_values_NoDup d k v :
  NoDup d.*2 → v ∉ d.*2 → NoDup (odict_set d k v).*2.
Proof.
  induction d as [|[k' v'] d IH]; simpl; intros Hnd Hv.
  - apply NoDup_singleton.
  - apply NoDup_cons in Hnd as [Hv' Hnd]. apply not_elem_of_cons in Hv as [? ?].
    destruct (decide (k' = k)); simpl; apply NoDup_cons; split; auto.
    intros [->|?]%odict_set_values; done.
Qed.

Lemma odict_get_Some d k v : odict_get d k = Some v → (k, v) ∈ d.
Proof.
  induction d as [|[k' v'] d IH]; simpl; [done|].
  destruct (decide (k' = k)) as [->|]; rewrite elem_of_cons.
  - intros [= ->]. by left.
  - intros ?. right. auto.
Qed.

Lemma odict_get_None d k : odict_get d k = None ↔ k ∉ d.*1.
Proof.
  induction d as [|[k' v'] d IH]; simpl.
  - split; [intros _; apply not_elem_of_nil | done].
  - rewrite not_elem_of_cons. destruct (decide (k' = k)); naive_solver.
Qed.

Lemma odict_get_elem d k v :
  NoDup d.*1 → (k, v) ∈ d → odict_get d k = Some v.
Proof.
  induction d as [|[k' v'] d IH]; simpl; intros Hnd Hin.
  - by apply elem_of_nil in Hin.
  - apply NoDup_cons in Hnd as [Hk Hnd].
    apply elem_of_cons in Hin as [[= <- <-]|Hin].
    + by rewrite decide_True.
    + rewrite decide_False; [auto|].
      intros ->. apply Hk. apply list_elem_of_fmap. by exists (k, v).
Qed.

Lemma odict_get_middle (d1 d2 : list (string * V)) k v :
  k ∉ d1.*1 → odict_get (d1 ++ (k, v) :: d2) k = Some v.
Proof.
  induction d1 as [|[k' v'] d1 IH]; simpl; intros Hk.
  - by rewrite decide_True.
  - apply not_elem_of_cons in Hk as [? ?]. rewrite decide_False; auto.
Qed.
End odict.

(** ** The order of declared names *)

Lemma declared_order_acc (names acc : list string) :
  NoDup acc →
  let r := foldl (λ acc n, if decide (n ∈ acc) then acc else acc ++ [n]) acc names in
  NoDup r ∧ (∀ n, n ∈ r ↔ n ∈ acc ∨ n ∈ names) ∧
  (NoDup (acc ++ names) → r = acc ++ names).
Proof.
  revert acc. induction names as [|x names IH]; intros acc Hacc; simpl.
  - split; [done|]. split; [|by rewrite app_nil_r].
    intros n. rewrite elem_of_nil. naive_solver.
  - destruct (decide (x ∈ acc)) as [Hx|Hx].
    + destruct (IH acc Hacc) as (Hnd & Hin & Heq). split; [done|]. split.
      * intros n. rewrite Hin, elem_of_cons. naive_solver.
      * intros Hnd'. apply NoDup_app in Hnd' as (_ & Hdis & _).
        exfalso. apply (Hdis x Hx). apply elem_of_cons. by left.
    + assert (NoDup (acc ++ [x])) as Hacc'.
      { apply NoDup_app. split; [done|]. split; [|apply NoDup_singleton].
        intros y Hy ->%list_elem_of_singleton. done. }
      destruct (IH _ Hacc') as (Hnd & Hin & Heq). split; [done|]. split.
      * intros n. rewrite Hin, elem_of_app, list_elem_of_singleton, elem_of_cons.
        naive_solver.
      * intros Hnd'. rewrite Heq; rewrite <- app_assoc; done.
Qed.

Lemma declared_order_NoDup names : NoDup (declared_order names).
Proof. apply (declared_order_acc names []). apply NoDup_nil_2. Qed.

Lemma elem_of_declared_order names n : n ∈ declared_order names ↔ n ∈ names.
Proof.
  destruct (declared_order_acc names [] NoDup_nil_2) as (_ & Hin & _).
  unfold declared_order. rewrite Hin, elem_of_nil. naive_solver.
Qed.

Lemma declared_order_distinct names : NoDup names → declared_order names = names.
Proof.
  intros Hnd.
  destruct (declared_order_acc names [] NoDup_nil_2) as (_ & _ & Heq).
  by apply Heq.
Qed.

Lemma odict_get_inj {V} (d : list (string * V)) k1 k2 v :
  NoDup d.*2 → odict_get d k1 = Some v → odict_get d k2 = Some v → k1 = k2.
Proof.
  induction d as [|[k' v'] d IH]; [done|]. cbn [odict_get]. csimpl.
  intros [Hv Hnd]%NoDup_cons.
  assert (∀ k, odict_get d k = Some v' → False) as Hfresh.
  { intros k Hk%odict_get_Some. apply Hv, list_elem_of_fmap. by exists (k, v'). }
  destruct (decide (k' = k1)) as [E1|], (decide (k' = k2)) as [E2|];
    intros H1 H2; simplify_eq; try done; try (exfalso; by eauto).
  by apply IH.
Qed.

(** ** Invariants of the object store *)

Section invariants.
Context {env : Externals}.
Implicit Types (st : state) (h : list (gmap string pyval)).

Lemma init_loop_inv names h (s : list (string * nat)) :
  NoDup s.*2 → (∀ d, d ∈ s.*2 → d < length h) →
  let r := foldl SecretsManager.init_step (h, s) names in
  NoDup r.2.*2 ∧ (∀ d, d ∈ r.2.*2 → d < length r.1) ∧
  r.2.*1 = foldl (λ acc n, if decide (n ∈ acc) then acc else acc ++ [n]) s.*1 names.
Proof.
  revert h s. induction names as [|n names IH]; intros h s Hnd Hlt; [done|].
  cbn [foldl].
  change (SecretsManager.init_step (h, s) n)
    with (h ++ [∅], odict_set s n (length h)).
  destruct (IH (h ++ [∅]) (odict_set s n (length h))) as (H1 & H2 & H3).
  - apply odict_set_values_NoDup; [done|]. intros Hin%Hlt. lia.
  - intros d [->|Hd%Hlt]%odict_set_values; rewrite length_app; simpl; lia.
  - split; [done|]. split; [done|]. rewrite H3. by rewrite odict_set_keys.
Qed.

Lemma wf_init c names : wf (SecretsManager.__init__ c names).
Proof.
  unfold SecretsManager.__init__.
  pose proof (init_loop_inv names [] []) as Hinv.
  destruct (foldl SecretsManager.init_step ([], []) names) as [h s] eqn:Hloop.
  destruct Hinv as (Hnd & Hlt & Hkeys);
    [apply NoDup_nil_2 | by intros d ?%elem_of_nil |]. cbn [fst snd] in *.
  destruct (reverse s.*2) as [|d maps] eqn:Hrev.
  - assert (s = []) as ->.
    { apply (f_equal length) in Hrev. rewrite length_reverse, length_fmap in Hrev.
      by destruct s. }
    constructor; cbn [heap secret_names _secrets _combined];
      [done | apply NoDup_nil_2 | by intros d ?%elem_of_nil |].
    right. split; [done|]. exists (length h). split; [done|].
    rewrite list_lookup_total_alt, lookup_app_r, Nat.sub_diag by lia. done.
  - constructor; cbn [heap secret_names _secrets _combined]; [done..|].
    left. split; [|done]. by intros ->.
Qed.

Lemma frame_refl st : frame st st.
Proof. by constructor. Qed.

Lemma frame_trans st1 st2 st3 : frame st1 st2 → frame st2 st3 → frame st1 st3.
Proof.
  intros [] []. constructor; try congruence.
  intros d Hd. rewrite <- frame_other0 by done. apply frame_other1. congruence.
Qed.

Lemma frame_set_client st c : frame st (set_client c st).
Proof. by constructor. Qed.

(** A store to a declared bundle stays inside the frame. *)
Lemma frame_store st d g :
  d ∈ (_secrets st).*2 → frame st (set_heap (<[d := g]> (heap st)) st).
Proof.
  intros Hd. constructor; cbn; try done.
  - apply length_insert.
  - intros d' Hd'. apply list_lookup_total_insert_ne. congruence.
Qed.

Lemma wf_frame st st' : wf st → frame st st' → wf st'.
Proof.
  intros [] []. constructor.
  - congruence.
  - congruence.
  - rewrite frame_secrets0, frame_length0. done.
  - rewrite frame_secrets0, frame_combined0.
    destruct wf_chain0 as [?|(Hs & d & Hc & Hd)]; [by left|right].
    split; [done|]. exists d. split; [done|]. rewrite frame_other0; [done|].
    rewrite Hs. apply not_elem_of_nil.
Qed.

Lemma getitem_declared st secret_name d :
  odict_get (_secrets st) secret_name = Some d → d ∈ (_secrets st).*2.
Proof.
  intros Hd%odict_get_Some. apply list_elem_of_fmap. by exists (secret_name, d).
Qed.

Lemma declared_getitem st secret_name :
  wf st → secret_name ∈ secret_names st →
  ∃ d, odict_get (_secrets st) secret_name = Some d.
Proof.
  intros Hwf Hin. destruct (odict_get (_secrets st) secret_name) eqn:Hget; [eauto|].
  apply odict_get_None in Hget. exfalso. apply Hget.
  rewrite (wf_names _ Hwf). by apply elem_of_declared_order.
Qed.

Lemma undeclared_getitem st secret_name :
  wf st → secret_name ∉ secret_names st →
  odict_get (_secrets st) secret_name = None.
Proof.
  intros Hwf Hin. apply odict_get_None. rewrite (wf_names _ Hwf).
  by rewrite elem_of_declared_order.
Qed.

(** The bundle written to holds what was stored, every other one is as
    before. *)
Lemma bundle_store_eq st secret_name d g :
  wf st → odict_get (_secrets st) secret_name = Some d →
  bundle (set_heap (<[d := g]> (heap st)) st) secret_name = Some g.
Proof.
  intros Hwf Hget. unfold bundle. cbn. rewrite Hget. cbn.
  apply list_lookup_insert_eq. apply (wf_bound _ Hwf). by eapply getitem_declared.
Qed.

Lemma bundle_store_ne st secret_name other d g :
  wf st → odict_get (_secrets st) secret_name = Some d → other ≠ secret_name →
  bundle (set_heap (<[d := g]> (heap st)) st) other = bundle st other.
Proof.
  intros Hwf Hget Hne. unfold bundle. cbn.
  destruct (odict_get (_secrets st) other) as [d'|] eqn:Hget'; [|done]. cbn.
  apply list_lookup_insert_ne. intros ->. apply Hne.
  eapply odict_get_inj; [apply (wf_nodup _ Hwf) | done | done].
Qed.

Lemma bundle_total st secret_name d g :
  wf st → odict_get (_secrets st) secret_name = Some d →
  bundle st secret_name = Some g ↔ heap st !!! d = g.
Proof.
  intros Hwf Hget. unfold bundle. rewrite Hget. cbn.
  assert (d < length (heap st)) as Hlt
    by (apply (wf_bound _ Hwf); by eapply getitem_declared).
  apply lookup_lt_is_Some in Hlt as [g' Hg'].
  rewrite (list_lookup_total_correct _ _ _ Hg'), Hg'. naive_solver.
Qed.

End invariants.

(** ** The methods, step by step *)

Section methods_facts.
Context {env : Externals}.
Implicit Types (st : state) (h : list (gmap string pyval)).

Lemma _get_secrets_pure secret_name st :
  SecretsManager._get_secrets secret_name st = (fetched st secret_name, st).
Proof.
  unfold fetched, SecretsManager._get_secrets.
  repeat (case_match; try done).
Qed.

Lemma fetched_client st st' secret_name :
  _client st' = _client st → fetched st' secret_name = fetched st secret_name.
Proof.
  intros Hc. unfold fetched, SecretsManager._get_secrets. rewrite Hc.
  repeat (case_match; try done).
Qed.

Lemma set_declared st secret_name key value d :
  odict_get (_secrets st) secret_name = Some d →
  SecretsManager.set secret_name key value st =
    (inr (), set_heap (<[d := <[key := value]> (heap st !!! d)]> (heap st)) st).
Proof.
  intros Hd. unfold SecretsManager.set, bind, SecretsManager._secrets_getitem.
  by rewrite Hd.
Qed.

Lemma set_undeclared st secret_name key value :
  odict_get (_secrets st) secret_name = None →
  SecretsManager.set secret_name key value st = (inl (KeyError secret_name), st).
Proof.
  intros Hd. unfold SecretsManager.set, bind, SecretsManager._secrets_getitem.
  by rewrite Hd.
Qed.

Lemma fetch_step_undeclared st secret_name rest :
  odict_get (_secrets st) secret_name = None →
  SecretsManager.fetch_loop (secret_name :: rest) st =
    (inl (KeyError secret_name), st).
Proof.
  intros Hd. cbn [SecretsManager.fetch_loop].
  unfold bind, SecretsManager._secrets_getitem. by rewrite Hd.
Qed.

(** When the fetch of a name fails its bundle has been emptied already. *)
Lemma fetch_step_fail st secret_name rest d e :
  odict_get (_secrets st) secret_name = Some d →
  fetched st secret_name = inl e →
  SecretsManager.fetch_loop (secret_name :: rest) st =
    (inl e, set_heap (<[d := ∅]> (heap st)) st).
Proof.
  intros Hd He. cbn [SecretsManager.fetch_loop].
  unfold bind, SecretsManager._secrets_getitem, SecretsManager.dict_clear.
  rewrite Hd. cbn [_secrets set_heap]. rewrite Hd.
  rewrite _get_secrets_pure, (fetched_client st) by done. by rewrite He.
Qed.

Lemma fetch_step_ok st secret_name rest d new :
  wf st →
  odict_get (_secrets st) secret_name = Some d →
  fetched st secret_name = inr new →
  SecretsManager.fetch_loop (secret_name :: rest) st =
    SecretsManager.fetch_loop rest (set_heap (<[d := new]> (heap st)) st).
Proof.
  intros Hwf Hd He. cbn [SecretsManager.fetch_loop].
  unfold bind, SecretsManager._secrets_getitem, SecretsManager.dict_clear,
    SecretsManager.dict_update.
  rewrite Hd. cbn [_secrets set_heap]. rewrite Hd.
  rewrite _get_secrets_pure, (fetched_client st) by done. rewrite He.
  cbn [heap set_heap _secrets secret_names _combined _client].
  assert (d < length (heap st)) as Hlt
    by (apply (wf_bound _ Hwf); by eapply getitem_declared).
  rewrite list_lookup_total_insert_eq by done.
  rewrite (right_id_L ∅ (∪)), list_insert_insert_eq. done.
Qed.

Lemma frame_set st secret_name key value :
  frame st (SecretsManager.set secret_name key value st).2.
Proof.
  destruct (odict_get (_secrets st) secret_name) as [d|] eqn:Hd.
  - rewrite (set_declared _ _ _ _ d) by done. apply frame_store.
    by eapply getitem_declared.
  - rewrite set_undeclared by done. apply frame_refl.
Qed.

Lemma frame_fetch_loop names st :
  wf st → frame st (SecretsManager.fetch_loop names st).2.
Proof.
  revert st. induction names as [|n names IH]; intros st Hwf;
    [apply frame_refl|].
  destruct (odict_get (_secrets st) n) as [d|] eqn:Hd.
  - assert (d ∈ (_secrets st).*2) as Hin by by eapply getitem_declared.
    destruct (fetched st n) as [e|new] eqn:He.
    + rewrite (fetch_step_fail _ _ _ d e) by done. by apply frame_store.
    + rewrite (fetch_step_ok _ _ _ d new) by done.
      pose proof (frame_store st d new Hin) as Hfr.
      eapply frame_trans; [done|]. apply IH. by eapply wf_frame.
  - rewrite fetch_step_undeclared by done. apply frame_refl.
Qed.

Lemma frame_update st secret_name :
  frame st (SecretsManager.update secret_name st).2.
Proof.
  unfold SecretsManager.update, bind, SecretsManager._secrets_getitem,
    SecretsManager.client_update_secret.
  repeat (case_match; simplify_eq; cbn [snd]);
    try apply frame_refl; apply frame_set_client.
Qed.

Lemma get_state st key default casting_type :
  (SecretsManager.get key default casting_type st).2 = st.
Proof.
  unfold SecretsManager.get, try_except_KeyError,
    SecretsManager._combined_getitem, raise, ret, lift.
  repeat (case_match; simplify_eq; cbn [snd]); done.
Qed.

(** Every reachable state is well formed. *)
Lemma reachable_wf st : reachable st → wf st.
Proof.
  induction 1 as [c names|st n k v _ IH|st _ IH|st n _ IH|st k d t _ IH|st c _ IH].
  - apply wf_init.
  - eapply wf_frame; [done | apply frame_set].
  - eapply wf_frame; [done | by apply frame_fetch_loop].
  - eapply wf_frame; [done | apply frame_update].
  - by rewrite get_state.
  - eapply wf_frame; [done | apply frame_set_client].
Qed.

End methods_facts.

(** ** The merged view *)

Section merged_view.
Context {env : Externals}.
Implicit Types (st : state) (h : list (gmap string pyval)).

Lemma chain_lookup_app h maps1 maps2 key :
  SecretsManager.chain_lookup h (maps1 ++ maps2) key =
    match SecretsManager.chain_lookup h maps1 key with
    | Some value => Some value
    | None => SecretsManager.chain_lookup h maps2 key
    end.
Proof.
  induction maps1 as [|d maps1 IH]; [done|]. cbn.
  by destruct ((h !!! d) !! key).
Qed.

Lemma chain_lookup_None h maps key :
  (∀ d, d ∈ maps → (h !!! d) !! key = None) →
  SecretsManager.chain_lookup h maps key = None.
Proof.
  induction maps as [|d maps IH]; intros Hall; [done|]. cbn.
  rewrite Hall by (apply elem_of_cons; by left).
  apply IH. intros d' Hd'. apply Hall, elem_of_cons. by right.
Qed.

Lemma wf_keys_NoDup st : wf st → NoDup (_secrets st).*1.
Proof. intros Hwf. rewrite (wf_names _ Hwf). apply declared_order_NoDup. Qed.

(** Every address held by [_secrets] is the bundle of a declared name. *)
Lemma declared_address st d :
  wf st → d ∈ (_secrets st).*2 →
  ∃ secret_name,
    (secret_name, d) ∈ _secrets st ∧
    odict_get (_secrets st) secret_name = Some d ∧
    bundle st secret_name = Some (heap st !!! d).
Proof.
  intros Hwf Hd. pose proof Hd as ([n d'] & -> & Hin)%list_elem_of_fmap.
  exists n. split; [done|].
  assert (odict_get (_secrets st) n = Some d') as Hget
    by (apply odict_get_elem; [by apply wf_keys_NoDup | done]).
  split; [done|]. by apply (bundle_total st n d').
Qed.

(** A key that no declared bundle holds is absent from the merged view. *)
Lemma merged_absent st key :
  wf st →
  (∀ secret_name g, bundle st secret_name = Some g → g !! key = None) →
  merged st key = None.
Proof.
  intros Hwf Hall. unfold merged.
  destruct (wf_chain _ Hwf) as [[_ ->]|(_ & d & -> & Hd)].
  - apply chain_lookup_None. intros d Hd. rewrite elem_of_reverse in Hd.
    destruct (declared_address st d Hwf Hd) as (n & _ & _ & Hb). eauto.
  - cbn. by rewrite Hd.
Qed.

(** The layered lookup: the bundle after which no declared bundle holds
    the key decides. *)
Lemma merged_precedence st pre secret_name post key g value :
  wf st →
  (_secrets st).*1 = pre ++ secret_name :: post →
  bundle st secret_name = Some g →
  g !! key = Some value →
  (∀ other g', other ∈ post → bundle st other = Some g' → g' !! key = None) →
  merged st key = Some value.
Proof.
  intros Hwf Hkeys Hb Hv Hpost. unfold merged.
  pose proof (wf_keys_NoDup st Hwf) as Hnd.
  apply fmap_app_inv in Hkeys as (s1 & s2' & -> & Hs2 & Hs).
  symmetry in Hs2. apply fmap_cons_inv in Hs2 as ([n d] & s2 & Hn & -> & ->).
  cbn in Hn. subst n.
  assert (∀ n' d', (n', d') ∈ _secrets st → odict_get (_secrets st) n' = Some d')
    as Hget by (intros; by apply odict_get_elem).
  assert (odict_get (_secrets st) secret_name = Some d) as Hd.
  { apply Hget. rewrite Hs, elem_of_app, elem_of_cons. right. by left. }
  apply (bundle_total st secret_name d g Hwf Hd) in Hb.
  destruct (wf_chain _ Hwf) as [[_ ->]|[Hnil _]];
    [|rewrite Hs in Hnil; by destruct s1].
  rewrite Hs, fmap_app, fmap_cons, reverse_app, reverse_cons, <- app_assoc.
  rewrite chain_lookup_app, chain_lookup_None.
  - cbn. by rewrite Hb, Hv.
  - intros d' Hd'. rewrite elem_of_reverse in Hd'.
    apply list_elem_of_fmap in Hd' as ([n' d''] & -> & Hin). cbn.
    assert (odict_get (_secrets st) n' = Some d'') as Hd'.
    { apply Hget. rewrite Hs, elem_of_app, elem_of_cons. right. by right. }
    apply (Hpost n' (heap st !!! d'')).
    + apply list_elem_of_fmap. by exists (n', d'').
    + by apply (bundle_total st n' d'').
Qed.

Lemma get_found st key default casting_type value :
  merged st key = Some value →
  SecretsManager.get key default casting_type st = (cast value casting_type, st).
Proof.
  unfold merged, SecretsManager.get, try_except_KeyError,
    SecretsManager._combined_getitem, lift.
  by intros ->.
Qed.

Lemma get_missing st key default casting_type :
  merged st key = None →
  SecretsManager.get key default casting_type st =
    if isinstance_Null default
    then (inl (KeyError (SecretsManager.not_found_message key)), st)
    else (inr default, st).
Proof.
  unfold merged, SecretsManager.get, try_except_KeyError,
    SecretsManager._combined_getitem, raise, ret.
  intros ->. by destruct (isinstance_Null default).
Qed.

End merged_view.

(** ** Refreshing from the store *)

Section refresh.
Context {env : Externals}.
Implicit Types (st : state) (names : list string).

Lemma fetch_loop_app names1 names2 st :
  SecretsManager.fetch_loop (names1 ++ names2) st =
    match SecretsManager.fetch_loop names1 st with
    | (inr _, st') => SecretsManager.fetch_loop names2 st'
    | (inl e, st') => (inl e, st')
    end.
Proof.
  revert st. induction names1 as [|n names1 IH]; intros st; [done|].
  cbn [app SecretsManager.fetch_loop]. unfold bind.
  repeat (case_match; simplify_eq; try done).
Qed.

(** A run of the loop over names whose fetches all succeed: each of them
    holds the fetched mapping afterwards, the other bundles are as before. *)
Lemma fetch_loop_all_ok names st :
  wf st →
  (∀ n, n ∈ names → n ∈ secret_names st) →
  (∀ n, n ∈ names → ∃ new, fetched st n = inr new) →
  ∃ st',
    SecretsManager.fetch_loop names st = (inr (), st') ∧
    wf st' ∧ frame st st' ∧ _client st' = _client st ∧
    (∀ n new, n ∈ names → fetched st n = inr new → bundle st' n = Some new) ∧
    (∀ n, n ∉ names → bundle st' n = bundle st n).
Proof.
  revert st. induction names as [|n names IH]; intros st Hwf Hdecl Hok.
  - exists st. split; [done|]. split; [done|]. split; [apply frame_refl|].
    split; [done|]. split; [|done]. by intros n new ?%elem_of_nil.
  - destruct (declared_getitem st n Hwf) as [d Hd];
      [apply Hdecl, elem_of_cons; by left|].
    destruct (Hok n) as [new Hnew]; [apply elem_of_cons; by left|].
    rewrite (fetch_step_ok st n names d new) by done.
    set (st1 := set_heap (<[d := new]> (heap st)) st).
    assert (frame st st1) as Hfr1
      by (apply frame_store; by eapply getitem_declared).
    assert (wf st1) as Hwf1 by by eapply wf_frame.
    assert (∀ m, fetched st1 m = fetched st m) as Hf
      by (intros m; by apply fetched_client).
    destruct (IH st1 Hwf1) as (st' & Hrun & Hwf' & Hfr & Hc & Hin & Hout).
    { intros m Hm. apply Hdecl, elem_of_cons. by right. }
    { intros m Hm. rewrite Hf. apply Hok, elem_of_cons. by right. }
    exists st'. split; [done|]. split; [done|].
    split; [by eapply frame_trans|]. split; [done|]. split.
    + intros m new' Hm Hnew'. destruct (decide (m ∈ names)) as [Hr|Hr].
      * apply Hin; [done|]. by rewrite Hf.
      * apply elem_of_cons in Hm as [->|?]; [|done].
        assert (new' = new) as -> by congruence.
        rewrite Hout by done. by apply bundle_store_eq.
    + intros m [Hne Hm]%not_elem_of_cons. rewrite Hout by done.
      by apply (bundle_store_ne st n m d new).
Qed.

(** The first failing fetch ends the run: the bundles refreshed before it
    keep what was fetched, the failing one is left empty, the others are
    as before. *)
Lemma fetch_loop_fails_at pre failing post st e :
  wf st →
  (∀ n, n ∈ pre ++ failing :: post → n ∈ secret_names st) →
  (∀ n, n ∈ pre → ∃ new, fetched st n = inr new) →
  fetched st failing = inl e →
  ∃ st',
    SecretsManager.fetch_loop (pre ++ failing :: post) st = (inl e, st') ∧
    bundle st' failing = Some ∅ ∧
    (∀ n new, n ∈ pre → n ≠ failing → fetched st n = inr new →
       bundle st' n = Some new) ∧
    (∀ n, n ∉ pre → n ≠ failing → bundle st' n = bundle st n).
Proof.
  intros Hwf Hdecl Hok Hfail.
  destruct (fetch_loop_all_ok pre st Hwf) as (st1 & Hrun & Hwf1 & Hfr & Hc & Hin & Hout).
  { intros n Hn. apply Hdecl, elem_of_app. by left. }
  { done. }
  assert (failing ∈ secret_names st1) as Hdecl1.
  { rewrite (frame_names _ _ Hfr). apply Hdecl, elem_of_app. right.
    apply elem_of_cons. by left. }
  destruct (declared_getitem st1 failing Hwf1 Hdecl1) as [d Hd].
  exists (set_heap (<[d := ∅]> (heap st1)) st1).
  rewrite fetch_loop_app, Hrun.
  rewrite (fetch_step_fail st1 failing post d e);
    [|done|by rewrite (fetched_client st)].
  split; [done|]. split; [by apply bundle_store_eq|]. split.
  - intros n new Hn Hne Hnew.
    rewrite (bundle_store_ne st1 failing n d ∅) by done. by apply Hin.
  - intros n Hn Hne.
    rewrite (bundle_store_ne st1 failing n d ∅) by done. by apply Hout.
Qed.

End refresh.

(** ** Properties of the class *)

Section properties.
Context {env : Externals}.
Implicit Types (st : state) (key secret_name : string) (value default : pyval).

Lemma chain_lookup_None_inv h maps key d :
  SecretsManager.chain_lookup h maps key = None → d ∈ maps →
  (h !!! d) !! key = None.
Proof.
  induction maps as [|d' maps IH]; intros Hnone Hd; [by apply elem_of_nil in Hd|].
  cbn in Hnone. destruct ((h !!! d') !! key) eqn:Hk; [done|].
  apply elem_of_cons in Hd as [->|Hd]; auto.
Qed.

(** A key held by some declared bundle is in the merged view. *)
Lemma merged_present st secret_name key g value :
  wf st → bundle st secret_name = Some g → g !! key = Some value →
  is_Some (merged st key).
Proof.
  intros Hwf Hb Hv. destruct (merged st key) eqn:Hm; [by eexists|]. exfalso.
  destruct (odict_get (_secrets st) secret_name) as [d|] eqn:Hd;
    [|unfold bundle in Hb; by rewrite Hd in Hb].
  apply (bundle_total st secret_name d g Hwf Hd) in Hb.
  pose proof (getitem_declared st secret_name d Hd) as Hin.
  destruct (wf_chain _ Hwf) as [[_ Hc]|[Hnil _]];
    [|rewrite Hnil in Hd; done].
  unfold merged in Hm. rewrite Hc in Hm.
  apply (chain_lookup_None_inv _ _ _ d) in Hm; [|by rewrite elem_of_reverse].
  congruence.
Qed.


(** The precedence law for pairwise distinct names: for every key held by
    one or more declared bundles, [get] returns the value of the bundle
    declared last among those holding the key, cast to the requested shape;
    in particular the value of the only bundle holding it. *)
Theorem precedence_law st pre secret_name post key g value default casting_type :
  reachable st →
  NoDup (secret_names st) →
  secret_names st = pre ++ secret_name :: post →
  bundle st secret_name = Some g →
  g !! key = Some value →
  (∀ other g', other ∈ post → bundle st other = Some g' → g' !! key = None) →
  SecretsManager.get key default casting_type st = (cast value casting_type, st).
Proof.
  intros Hwf%reachable_wf Hnd Hnames Hb Hv Hpost.
  apply get_found. eapply merged_precedence; try done.
  by rewrite (wf_names _ Hwf), declared_order_distinct.
Qed.

(** C2: for a key absent from the merged view and a default that is not
    the marker (no instance of [Null]; [None] included), [get] returns the
    default itself, and [cast] is not applied to it. *)
Theorem default_returned_uncast st key default casting_type :
  reachable st →
  (∀ secret_name g, bundle st secret_name = Some g → g !! key = None) →
  isinstance_Null default = false →
  SecretsManager.get key default casting_type st = (inr default, st).
Proof.
  intros Hwf%reachable_wf Habsent Hdefault.
  rewrite get_missing by by apply merged_absent. by rewrite Hdefault.
Qed.

(** C3: for a key absent from the merged view, [get] without a default
    (the marker [null] left in place) raises the key error whose message
    names the key and says to check the secret in AWS Secrets Manager; it
    returns no value, so never the marker. *)
Theorem missing_key_raises st key casting_type :
  reachable st →
  (∀ secret_name g, bundle st secret_name = Some g → g !! key = None) →
  SecretsManager.get key null casting_type st =
    (inl (KeyError (repr (PyStr key) +:+
       " not found. Please check secret value in AWS Secrets Manager.")), st).
Proof.
  intros Hwf%reachable_wf Habsent.
  by rewrite get_missing by by apply merged_absent.
Qed.

(** C4: when the store raises for a declared name and the fetches of the
    names before it succeed, [fetch] ends there with the error; the
    bundles refreshed before it keep what was fetched, and the bundles
    that were not reached are as they were. *)
Theorem fetch_aborts_without_rollback st pre failing post code :
  reachable st →
  secret_names st = pre ++ failing :: post →
  (∀ n, n ∈ pre → ∃ new, fetched st n = inr new) →
  get_secret_value (_client st) failing = inl (ClientError code) →
  let st' := (SecretsManager.fetch st).2 in
  (SecretsManager.fetch st).1 = inl (SecretsManagerException_from_code code) ∧
  (∀ n new, n ∈ pre → n ≠ failing → fetched st n = inr new →
     bundle st' n = Some new) ∧
  (∀ n, n ∉ pre → n ≠ failing → bundle st' n = bundle st n).
Proof.
  intros Hwf%reachable_wf Hnames Hok Hraise.
  assert (fetched st failing = inl (SecretsManagerException_from_code code)) as Hfail
    by (unfold fetched, SecretsManager._get_secrets; by rewrite Hraise).
  assert (∀ n, n ∈ pre ++ failing :: post → n ∈ secret_names st) as Hdecl
    by (intros n; by rewrite Hnames).
  destruct (fetch_loop_fails_at pre failing post st _ Hwf Hdecl Hok Hfail)
    as (st' & Hrun & _ & Hin & Hout).
  unfold SecretsManager.fetch. rewrite Hnames, Hrun. done.
Qed.

(** C5 (amended): when the fetch of a declared name fails, [fetch] ends
    with that error; every other bundle is left with its previous content
    or with the newly fetched one, and the bundle whose fetch failed is
    left empty. *)
Theorem fetch_failure_leaves_bundle_empty st pre failing post e :
  reachable st →
  secret_names st = pre ++ failing :: post →
  (∀ n, n ∈ pre → ∃ new, fetched st n = inr new) →
  fetched st failing = inl e →
  let st' := (SecretsManager.fetch st).2 in
  (SecretsManager.fetch st).1 = inl e ∧
  bundle st' failing = Some ∅ ∧
  (∀ n, n ∈ secret_names st → n ≠ failing →
     bundle st' n = bundle st n ∨
     ∃ new, fetched st n = inr new ∧ bundle st' n = Some new).
Proof.
  intros Hwf%reachable_wf Hnames Hok Hfail.
  assert (∀ n, n ∈ pre ++ failing :: post → n ∈ secret_names st) as Hdecl
    by (intros n; by rewrite Hnames).
  destruct (fetch_loop_fails_at pre failing post st _ Hwf Hdecl Hok Hfail)
    as (st' & Hrun & Hn & Hin & Hout).
  unfold SecretsManager.fetch. rewrite Hnames, Hrun. cbn [fst snd].
  split; [done|]. split; [done|]. intros n _ Hne.
  destruct (decide (n ∈ pre)) as [Hpre|Hpre].
  - right. destruct (Hok n Hpre) as [new Hnew]. exists new. auto.
  - left. auto.
Qed.

Lemma remotely_stored_fetched st secret_name mapping :
  remotely_stored st secret_name mapping → fetched st secret_name = inr mapping.
Proof.
  intros (response & Hresponse & Hpayload).
  unfold fetched, SecretsManager._get_secrets. rewrite Hresponse.
  destruct (SecretString response) as [text|]; [by rewrite Hpayload|].
  destruct (SecretBinary response) as [data|]; [|done].
  destruct Hpayload as (text & -> & ->). done.
Qed.

(** C6: when the store holds a mapping for every declared name (the answer
    of [get_secret_value] decodes to it), [fetch] succeeds and leaves every
    declared bundle with exactly the mapping stored remotely; a key written
    locally with [set], held by the bundle before the fetch, is gone after
    it when the remote mapping lacks it. *)
Theorem fetch_repopulates st :
  reachable st →
  (∀ n, n ∈ secret_names st → ∃ new, remotely_stored st n new) →
  let st' := (SecretsManager.fetch st).2 in
  (SecretsManager.fetch st).1 = inr () ∧
  (∀ n new, n ∈ secret_names st → remotely_stored st n new →
     bundle st' n = Some new) ∧
  (∀ st0 secret_name key value new,
     reachable st0 → secret_name ∈ secret_names st0 →
     st = (SecretsManager.set secret_name key value st0).2 →
     remotely_stored st secret_name new → new !! key = None →
     (∃ g, bundle st secret_name = Some g ∧ g !! key = Some value) ∧
     (∃ g, bundle st' secret_name = Some g ∧ g !! key = None)).
Proof.
  intros Hwf%reachable_wf Hstored.
  destruct (fetch_loop_all_ok (secret_names st) st Hwf)
    as (st' & Hrun & _ & _ & _ & Hin & _); [done | |].
  { intros n [new Hnew%remotely_stored_fetched]%Hstored. by exists new. }
  unfold SecretsManager.fetch. rewrite Hrun. cbn [fst snd].
  split; [done|]. split.
  { intros n new Hn Hnew%remotely_stored_fetched. by apply Hin. }
  intros st0 n key value new Hwf0%reachable_wf Hn0 Hst Hnew%remotely_stored_fetched Hkey.
  destruct (declared_getitem st0 n Hwf0 Hn0) as [d Hd].
  rewrite (set_declared st0 n key value d Hd) in Hst. cbn [snd] in Hst.
  split.
  - exists (<[key := value]> (heap st0 !!! d)). split; [|apply lookup_insert_eq].
    rewrite Hst. by apply bundle_store_eq.
  - exists new. split; [|done]. apply Hin; [|done]. by rewrite Hst.
Qed.

(** C7: [update] serialises the mapping of the named bundle alone and
    sends it under that name; the object store, hence every bundle and the
    merged view, is what it was. *)
Theorem update_pushes_own_bundle st secret_name g :
  reachable st →
  bundle st secret_name = Some g →
  let st' := (SecretsManager.update secret_name st).2 in
  heap st' = heap st ∧ _secrets st' = _secrets st ∧
  _combined st' = _combined st ∧
  (∀ n, bundle st' n = bundle st n) ∧
  (∀ key, merged st' key = merged st key) ∧
  match json_dumps g with
  | inr payload =>
      update_secret_calls (_client st') =
        update_secret_calls (_client st) ++ [(secret_name, payload)]
  | inl e => SecretsManager.update secret_name st = (inl e, st)
  end.
Proof.
  intros Hwf%reachable_wf Hb.
  destruct (odict_get (_secrets st) secret_name) as [d|] eqn:Hd;
    [|unfold bundle in Hb; by rewrite Hd in Hb].
  apply (bundle_total st secret_name d g Hwf Hd) in Hb.
  unfold SecretsManager.update, bind, SecretsManager._secrets_getitem,
    SecretsManager.client_update_secret, bundle, merged.
  rewrite Hd, Hb. destruct (json_dumps g) as [e|payload]; [done|].
  by destruct (update_secret (_client st) secret_name payload).
Qed.


(** C10: [set] under a name that was not declared at construction raises
    [KeyError] and changes nothing: no bundle is created, every bundle and
    the merged view stay as they were. *)
Theorem set_undeclared_name_raises st secret_name key value :
  reachable st →
  secret_name ∉ secret_names st →
  SecretsManager.set secret_name key value st = (inl (KeyError secret_name), st).
Proof.
  intros Hwf%reachable_wf Hn. apply set_undeclared. by apply undeclared_getitem.
Qed.

End properties.

(** ** The caster of the specification *)

Section casting.
Context {env : Externals}.

Lemma table_lookup_app t1 t2 s :
  caster.table_lookup (t1 ++ t2) s =
    match caster.table_lookup t1 s with
    | Some b => Some b
    | None => caster.table_lookup t2 s
    end.
Proof.
  induction t1 as [|[k b] t1 IH]; [done|]. cbn. by destruct (String.eqb k s).
Qed.

Lemma table_lookup_None t s : s ∉ t.*1 → caster.table_lookup t s = None.
Proof.
  induction t as [|[k b] t IH]; [done|]. cbn [caster.table_lookup]. csimpl.
  intros [Hne Hs]%not_elem_of_cons.
  destruct (String.eqb_spec k s) as [->|_]; [done | auto].
Qed.

Lemma cast_bool_recognised more s b :
  caster.table_lookup caster.booleans (caster.lower s) = Some b →
  caster.cast more (PyStr s) py_bool = caster.Returns (PyBool b).
Proof.
  intros Hs. unfold caster.cast, caster.cast_bool.
  by rewrite table_lookup_app, Hs.
Qed.

(** C9: the casts that [get] applies to the values it finds, for a caster
    that meets the specification. Text cast to a boolean, an integer or a
    float gives: "true" -> True, "0" -> False, "42" -> 42, "3.14" -> 3.14
    (the binary64 number 7070651414971679 * 2^-51, within half a unit in the
    last place of 314/100); the spellings true/false, 1/0, yes/no are
    recognised in any letter case, and text that is not recognised fails
    with [CastError]. *)
Theorem casting_semantics (more : list (string * bool)) :
  (conforms more →
   ∀ st key value default casting_type,
     merged st key = Some value →
     match caster.cast more value casting_type with
     | caster.Returns v =>
         SecretsManager.get key default casting_type st = (inr v, st)
     | caster.Raises e =>
         SecretsManager.get key default casting_type st = (inl e, st)
     | caster.Unspecified => True
     end) ∧
  caster.cast more (PyStr "true") py_bool = caster.Returns (PyBool true) ∧
  caster.cast more (PyStr "0") py_bool = caster.Returns (PyBool false) ∧
  caster.cast more (PyStr "42") py_int = caster.Returns (PyInt 42) ∧
  caster.cast more (PyStr "3.14") py_float =
    caster.Returns (PyFloat (Finite false 7070651414971679 (-51))) ∧
  (2 * Z.abs (100 * 7070651414971679 - 314 * 2 ^ 51) ≤ 100)%Z ∧
  (∀ s, caster.lower s ∈ ["true"; "1"; "yes"] →
     caster.cast more (PyStr s) py_bool = caster.Returns (PyBool true)) ∧
  (∀ s, caster.lower s ∈ ["false"; "0"; "no"] →
     caster.cast more (PyStr s) py_bool = caster.Returns (PyBool false)) ∧
  (∀ s, caster.lower s ∉ (caster.booleans ++ more).*1 →
     caster.cast more (PyStr s) py_bool = caster.Raises CastError).
Proof.
  split.
  { intros Hcast st key value default casting_type Hfound.
    rewrite (get_found st key default casting_type value Hfound).
    specialize (Hcast value casting_type).
    destruct (caster.cast more value casting_type); [by rewrite Hcast..|done]. }
  do 4 (split; [by apply cast_bool_recognised || reflexivity|]).
  split; [by vm_compute|].
  split; [|split].
  - intros s Hs. apply cast_bool_recognised.
    repeat (apply elem_of_cons in Hs as [->|Hs]; [reflexivity|]).
    by apply elem_of_nil in Hs.
  - intros s Hs. apply cast_bool_recognised.
    repeat (apply elem_of_cons in Hs as [->|Hs]; [reflexivity|]).
    by apply elem_of_nil in Hs.
  - intros s Hs. unfold caster.cast, caster.cast_bool.
    by rewrite table_lookup_None.
Qed.

End casting.

(** ** The properties on concrete instances *)

Lemma example_layers_reachable : reachable (env := example_externals) example_layers.
Proof. do 3 apply reachable_set. apply reachable_init. Qed.

Lemma example_partial_store_reachable :
  reachable (env := example_externals) example_partial_store.
Proof. apply reachable_store, example_layers_reachable. Qed.

Lemma example_full_store_reachable :
  reachable (env := example_externals) example_full_store.
Proof. apply reachable_store, example_layers_reachable. Qed.

Lemma example_repeated_reachable :
  reachable (env := example_externals) example_repeated.
Proof. do 2 apply reachable_set. apply reachable_init. Qed.

Lemma example_names_distinct : NoDup (secret_names example_layers).
Proof. apply (bool_decide_unpack _). by vm_compute. Qed.

(** With [base = {a: 1, b: 2}] and [override = {b: 3}], [get] of "b" is 3. *)
Lemma precedence_law_witness :
  SecretsManager.get (env := example_externals) "b" null pass_through example_layers
  = (inr (PyInt 3), example_layers).
Proof.
  apply (precedence_law (env := example_externals) example_layers
           ["base"] "override" [] "b" {["b" := PyInt 3]} (PyInt 3) null pass_through).
  - apply example_layers_reachable.
  - apply example_names_distinct.
  - reflexivity.
  - by_computation.
  - by_computation.
  - intros other g' Hother. by apply elem_of_nil in Hother.
Defined.

(** C1, the code on a name given twice: built with the names "a", "b", "a",
    where "a" holds "1" and "b" holds "2" under the key "k", [get] of "k"
    returns "2", the value of "b", although "a" is the name given last and
    the docstring of [__init__] says that the last name has priority. *)
Theorem repeated_name_loses_priority :
  secret_names example_repeated = ["a"; "b"; "a"] ∧
  bundle example_repeated "a" = Some {["k" := PyStr "1"]} ∧
  bundle example_repeated "b" = Some {["k" := PyStr "2"]} ∧
  SecretsManager.get (env := example_externals) "k" null py_str example_repeated
  = (inr (PyStr "2"), example_repeated).
Proof. repeat split; by_computation. Qed.

(** With the names "a", "b", "a", the bundle "b" decides although "a" was
    named last: without the distinctness of the names the law fails. *)
Lemma precedence_law_fails_for_repeated_name :
  ¬ (∀ st pre secret_name post key g value default casting_type,
       reachable (env := example_externals) st →
       secret_names st = pre ++ secret_name :: post →
       bundle st secret_name = Some g →
       g !! key = Some value →
       (∀ other g', other ∈ post → bundle st other = Some g' → g' !! key = None) →
       SecretsManager.get (env := example_externals) key default casting_type st
       = (cast (Externals := example_externals) value casting_type, st)).
Proof.
  intros Hclaim.
  specialize (Hclaim example_repeated ["a"; "b"] "a" [] "k"
                {["k" := PyStr "1"]} (PyStr "1") null py_str
                example_repeated_reachable eq_refl).
  assert (SecretsManager.get (env := example_externals) "k" null py_str example_repeated
          = (inr (PyStr "2"), example_repeated)) as Hget by by_computation.
  rewrite Hget in Hclaim.
  assert ((inr (PyStr "2") : exn + pyval) = inr (PyStr "1")) as Heq; [|discriminate Heq].
  refine (f_equal fst (Hclaim _ _ _)).
  - by_computation.
  - by_computation.
  - intros other g' Hother. by apply elem_of_nil in Hother.
Qed.

(** The two bundles of [example_layers] hold the keys "a" and "b" only. *)
Lemma example_layers_keys n g key :
  bundle example_layers n = Some g → key ≠ "a" → key ≠ "b" → g !! key = None.
Proof.
  intros Hb Ha Hb'.
  destruct (decide (n = "base")) as [->|?];
    [|destruct (decide (n = "override")) as [->|?]].
  - assert (g = {["a" := PyInt 1; "b" := PyInt 2]}) as ->
      by (apply (inj Some); rewrite <- Hb; by_computation).
    by simplify_map_eq.
  - assert (g = {["b" := PyInt 3]}) as ->
      by (apply (inj Some); rewrite <- Hb; by_computation).
    by simplify_map_eq.
  - exfalso. unfold bundle in Hb.
    change (_secrets example_layers) with [("base", 0); ("override", 1)] in Hb.
    cbn in Hb. by rewrite !decide_False in Hb by done.
Qed.

Lemma default_returned_uncast_witness :
  SecretsManager.get (env := example_externals) "c" PyNone py_int example_layers
  = (inr PyNone, example_layers).
Proof.
  apply (default_returned_uncast (env := example_externals)).
  - apply example_layers_reachable.
  - intros n g Hb. by apply (example_layers_keys n).
  - reflexivity.
Defined.

Lemma missing_key_raises_witness :
  SecretsManager.get (env := example_externals) "c" null py_int example_layers
  = (inl (KeyError
       "'c' not found. Please check secret value in AWS Secrets Manager."),
     example_layers).
Proof.
  apply (missing_key_raises (env := example_externals)).
  - apply example_layers_reachable.
  - intros n g Hb. by apply (example_layers_keys n).
Defined.

(** The store holds [base] and raises for [override]: [fetch] refreshes
    [base] and ends with the error. *)
Lemma fetch_aborts_without_rollback_witness :
  (SecretsManager.fetch (env := example_externals) example_partial_store).1
  = inl (SecretsManagerException_from_code "ResourceNotFoundException") ∧
  bundle (SecretsManager.fetch (env := example_externals) example_partial_store).2 "base"
  = Some {["a" := PyInt 1; "b" := PyInt 2]}.
Proof.
  destruct (fetch_aborts_without_rollback (env := example_externals)
              example_partial_store ["base"] "override" []
              "ResourceNotFoundException") as (Herr & Hpre & _).
  - apply example_partial_store_reachable.
  - reflexivity.
  - intros n Hn. names_cases Hn.
    exists {["a" := PyInt 1; "b" := PyInt 2]}. by_computation.
  - by_computation.
  - split; [exact Herr|]. apply Hpre; [|done|by_computation].
    apply elem_of_cons. by left.
Defined.

Lemma fetch_failure_leaves_bundle_empty_witness :
  (SecretsManager.fetch (env := example_externals) example_partial_store).1
  = inl (SecretsManagerException_from_code "ResourceNotFoundException") ∧
  bundle (SecretsManager.fetch (env := example_externals) example_partial_store).2 "override"
  = Some ∅.
Proof.
  destruct (fetch_failure_leaves_bundle_empty (env := example_externals)
              example_partial_store ["base"] "override" []
              (SecretsManagerException_from_code "ResourceNotFoundException"))
    as (Herr & Hempty & _).
  - apply example_partial_store_reachable.
  - reflexivity.
  - intros n Hn. names_cases Hn.
    exists {["a" := PyInt 1; "b" := PyInt 2]}. by_computation.
  - by_computation.
  - by split.
Defined.

(** The bundle [override] held [{b: 3}]; after the failed fetch it holds
    neither that nor a fetched mapping: the claim C5 as stated fails. *)
Lemma fetch_failure_clears_the_bundle :
  ¬ (∀ st pre failing post e,
       reachable (env := example_externals) st →
       secret_names st = pre ++ failing :: post →
       (∀ n, n ∈ pre → ∃ new, fetched (env := example_externals) st n = inr new) →
       fetched (env := example_externals) st failing = inl e →
       ∀ n, n ∈ secret_names st →
         bundle (SecretsManager.fetch (env := example_externals) st).2 n = bundle st n ∨
         ∃ new, fetched (env := example_externals) st n = inr new ∧
                bundle (SecretsManager.fetch (env := example_externals) st).2 n = Some new).
Proof.
  intros Hclaim.
  destruct (Hclaim example_partial_store ["base"] "override" []
              (SecretsManagerException_from_code "ResourceNotFoundException")
              example_partial_store_reachable eq_refl) with (n := "override")
    as [Hsame|(new & Hnew & _)].
  - intros n Hn. names_cases Hn.
    exists {["a" := PyInt 1; "b" := PyInt 2]}. by_computation.
  - by_computation.
  - apply elem_of_cons. right. apply elem_of_cons. by left.
  - apply (f_equal (λ o, o ≫= (.!! "b"))) in Hsame. vm_compute in Hsame. discriminate.
  - vm_compute in Hnew. discriminate.
Qed.

Lemma example_swapped_store_reachable :
  reachable (env := example_externals) example_swapped_store.
Proof. apply reachable_store, example_layers_reachable. Qed.

(** The bundles hold [base = {a: 1, b: 2}] and [override = {b: 3}], the
    store the two mappings the other way round: after [fetch] each bundle
    holds what the store holds for its name. *)
Lemma fetch_repopulates_witness :
  (SecretsManager.fetch (env := example_externals) example_swapped_store).1 = inr () ∧
  bundle (SecretsManager.fetch (env := example_externals) example_swapped_store).2 "base"
  = Some {["b" := PyInt 3]} ∧
  bundle (SecretsManager.fetch (env := example_externals) example_swapped_store).2 "override"
  = Some {["a" := PyInt 1; "b" := PyInt 2]}.
Proof.
  assert (remotely_stored (env := example_externals) example_swapped_store
            "base" {["b" := PyInt 3]}) as Hbase.
  { exists {| SecretString := Some "doc:b3"; SecretBinary := None |}.
    split; by_computation. }
  assert (remotely_stored (env := example_externals) example_swapped_store
            "override" {["a" := PyInt 1; "b" := PyInt 2]}) as Hoverride.
  { exists {| SecretString := Some "doc:a1b2"; SecretBinary := None |}.
    split; by_computation. }
  destruct (fetch_repopulates (env := example_externals) example_swapped_store)
    as (Hok & Hin & _).
  - apply example_swapped_store_reachable.
  - intros n Hn. names_cases Hn; eauto.
  - split; [exact Hok|]. split; (apply Hin; [|done]).
    + apply elem_of_cons. by left.
    + apply elem_of_cons. right. apply elem_of_cons. by left.
Defined.

Lemma update_pushes_own_bundle_witness :
  update_secret_calls
    (_client (SecretsManager.update (env := example_externals) "base" example_layers).2)
  = [("base", "keys:a,b")] ∧
  bundle (SecretsManager.update (env := example_externals) "base" example_layers).2 "override"
  = Some {["b" := PyInt 3]}.
Proof.
  destruct (update_pushes_own_bundle (env := example_externals) example_layers
              "base" {["a" := PyInt 1; "b" := PyInt 2]})
    as (_ & _ & _ & Hbundles & _ & Hcall).
  - apply example_layers_reachable.
  - by_computation.
  - split; [exact Hcall|]. rewrite Hbundles. by_computation.
Defined.


Lemma set_undeclared_name_raises_witness :
  SecretsManager.set "staging" "a" (PyInt 7) example_layers
  = (inl (KeyError "staging"), example_layers).
Proof.
  apply (set_undeclared_name_raises (env := example_externals)).
  - apply example_layers_reachable.
  - apply (bool_decide_unpack _). by vm_compute.
Defined.

Lemma example_externals_conforms : conforms (env := example_externals) [].
Proof.
  intros value casting_type. cbn. unfold example_cast.
  by destruct (caster.cast [] value casting_type).
Qed.

(** A bundle holding the text "Yes" under "flag": [get] as a boolean is
    True; "maybe" is not a boolean. *)
Lemma casting_semantics_witness :
  SecretsManager.get (env := example_externals) "flag" null py_bool
    (SecretsManager.set "base" "flag" (PyStr "Yes") example_layers).2
  = (inr (PyBool true), (SecretsManager.set "base" "flag" (PyStr "Yes") example_layers).2) ∧
  caster.cast [] (PyStr "NO") py_bool = caster.Returns (PyBool false) ∧
  caster.cast [] (PyStr "maybe") py_bool = caster.Raises CastError.
Proof.
  destruct (casting_semantics (env := example_externals) [])
    as (Hget & _ & _ & _ & _ & _ & Htrue & Hfalse & Hnone).
  split; [|split].
  - specialize (Hget example_externals_conforms
                  (SecretsManager.set "base" "flag" (PyStr "Yes") example_layers).2
                  "flag" (PyStr "Yes") null py_bool).
    rewrite (Htrue "Yes") in Hget by (apply (bool_decide_unpack _); by vm_compute).
    apply Hget. by_computation.
  - apply Hfalse. apply (bool_decide_unpack _). by vm_compute.
  - apply Hnone. apply (bool_decide_unpack _). by vm_compute.
Defined.

(** ** Further facts on lookups and stores *)

Section lookups.
Context {env : Externals}.
Implicit Types (st : state) (h : list (gmap string pyval)).

Lemma chain_lookup_ext h h' maps key :
  (∀ d, d ∈ maps → (h' !!! d) !! key = (h !!! d) !! key) →
  SecretsManager.chain_lookup h' maps key = SecretsManager.chain_lookup h maps key.
Proof.
  induction maps as [|d maps IH]; intros Hsame; [done|]. cbn.
  rewrite Hsame by (apply elem_of_cons; by left).
  rewrite IH; [done|]. intros d' Hd'. apply Hsame, elem_of_cons. by right.
Qed.

Lemma chain_lookup_Some_inv h maps key value :
  SecretsManager.chain_lookup h maps key = Some value →
  ∃ d, d ∈ maps ∧ (h !!! d) !! key = Some value.
Proof.
  induction maps as [|d maps IH]; [done|]. cbn.
  destruct ((h !!! d) !! key) as [v|] eqn:Hd.
  - intros [= ->]. exists d. split; [apply elem_of_cons; by left | done].
  - intros (d' & Hin & Hd')%IH. exists d'. split; [apply elem_of_cons; by right | done].
Qed.

Lemma chain_lookup_is_Some h maps key :
  is_Some (SecretsManager.chain_lookup h maps key) ↔
  ∃ d, d ∈ maps ∧ is_Some ((h !!! d) !! key).
Proof.
  split.
  - intros [value (d & Hin & Hd)%chain_lookup_Some_inv]. exists d. by rewrite Hd.
  - intros (d & Hin & Hd).
    destruct (SecretsManager.chain_lookup h maps key) eqn:Hc; [by eexists|].
    rewrite (chain_lookup_None_inv h maps key d Hc Hin) in Hd. by destruct Hd.
Qed.

(** The value the merged view holds under a key is held by a declared
    bundle. *)
Lemma merged_Some_declared st key value :
  wf st → merged st key = Some value →
  ∃ secret_name g,
    secret_name ∈ secret_names st ∧ bundle st secret_name = Some g ∧
    g !! key = Some value.
Proof.
  intros Hwf (d & Hin & Hd)%chain_lookup_Some_inv.
  destruct (wf_chain _ Hwf) as [[_ Hc]|(_ & d' & Hc & Hempty)].
  - rewrite Hc, elem_of_reverse in Hin.
    destruct (declared_address st d Hwf Hin) as (n & Hn & _ & Hb).
    exists n, (heap st !!! d). split; [|done].
    apply elem_of_declared_order. rewrite <- (wf_names _ Hwf).
    apply list_elem_of_fmap. by exists (n, d).
  - rewrite Hc in Hin. apply list_elem_of_singleton in Hin as ->.
    by rewrite Hempty in Hd.
Qed.

Lemma bundle_declared st secret_name :
  wf st → is_Some (bundle st secret_name) ↔ secret_name ∈ secret_names st.
Proof.
  intros Hwf. split.
  - intros [g Hb]. destruct (decide (secret_name ∈ secret_names st)); [done|].
    unfold bundle in Hb. by rewrite undeclared_getitem in Hb.
  - intros Hin. destruct (declared_getitem st secret_name Hwf Hin) as [d Hd].
    exists (heap st !!! d). by apply (bundle_total st secret_name d).
Qed.

Lemma fetch_loop_client names st :
  _client (SecretsManager.fetch_loop names st).2 = _client st.
Proof.
  revert st. induction names as [|n names IH]; intros st; [done|].
  destruct (odict_get (_secrets st) n) as [d|] eqn:Hd;
    [|by rewrite fetch_step_undeclared].
  cbn [SecretsManager.fetch_loop].
  unfold bind, SecretsManager._secrets_getitem, SecretsManager.dict_clear,
    SecretsManager.dict_update.
  rewrite Hd. cbn [_secrets set_heap]. rewrite Hd, _get_secrets_pure.
  destruct (fetched _ n); [done|]. by rewrite IH.
Qed.

(** Either every fetch of a list of names succeeds, or there is a first
    name whose fetch fails. *)
Lemma first_failure st names :
  (∀ n, n ∈ names → ∃ new, fetched st n = inr new) ∨
  (∃ pre failing post e,
     names = pre ++ failing :: post ∧
     (∀ n, n ∈ pre → ∃ new, fetched st n = inr new) ∧
     fetched st failing = inl e).
Proof.
  induction names as [|n names IH].
  - left. by intros n ?%elem_of_nil.
  - destruct (fetched st n) as [e|new] eqn:Hn.
    + right. exists [], n, names, e. split; [done|]. split; [|done].
      by intros m ?%elem_of_nil.
    + destruct IH as [Hall|(pre & failing & post & e & -> & Hpre & He)].
      * left. intros m [->|Hm]%elem_of_cons; eauto.
      * right. exists (n :: pre), failing, post, e. split; [done|]. split; [|done].
        intros m [->|Hm]%elem_of_cons; eauto.
Qed.

End lookups.

(** ** Further properties of the class *)

Section further_properties.
Context {env : Externals}.
Implicit Types (st : state) (key secret_name : string) (value default : pyval).

Lemma init_loop_empty names h (s : list (string * nat)) :
  Forall (λ g, g = ∅) h →
  Forall (λ g, g = ∅) (foldl SecretsManager.init_step (h, s) names).1.
Proof.
  revert h s. induction names as [|n names IH]; intros h s Hh; [done|].
  cbn [foldl]. apply IH. cbn [fst]. apply Forall_app. split; [done|].
  by apply Forall_singleton.
Qed.

Lemma heap_init_empty c names :
  Forall (λ g, g = ∅) (heap (SecretsManager.__init__ c names)).
Proof.
  unfold SecretsManager.__init__.
  pose proof (init_loop_empty names [] [] (Forall_nil_2 _)) as Hh.
  destruct (foldl SecretsManager.init_step ([], []) names) as [h s].
  cbn [fst] in Hh. destruct (reverse s.*2); cbn [heap]; [|done].
  apply Forall_app. split; [done|]. by apply Forall_singleton.
Qed.

Lemma secret_names_init c names :
  secret_names (SecretsManager.__init__ c names) = names.
Proof.
  unfold SecretsManager.__init__.
  destruct (foldl SecretsManager.init_step ([], []) names) as [h s].
  by destruct (reverse s.*2).
Qed.

(** The precedence among bundles in general: a name given more than once
    ranks where it was given first, and the bundle that comes last in that
    order among those holding the key decides what [get] returns. *)
Theorem precedence_by_first_occurrence
    st pre secret_name post key g value default casting_type :
  reachable st →
  declared_order (secret_names st) = pre ++ secret_name :: post →
  bundle st secret_name = Some g →
  g !! key = Some value →
  (∀ other g', other ∈ post → bundle st other = Some g' → g' !! key = None) →
  SecretsManager.get key default casting_type st = (cast value casting_type, st).
Proof.
  intros Hwf%reachable_wf Horder Hb Hv Hpost.
  apply get_found. eapply merged_precedence; try done.
  by rewrite (wf_names _ Hwf).
Qed.

(** A key held by some declared bundle is always found: whatever the
    default, [get] returns the cast of a value that a declared bundle holds
    under the key, never the default and never the not-found error. *)
Theorem held_key_is_found st secret_name key g :
  reachable st →
  bundle st secret_name = Some g →
  is_Some (g !! key) →
  ∃ holder g' value,
    holder ∈ secret_names st ∧ bundle st holder = Some g' ∧
    g' !! key = Some value ∧
    ∀ default casting_type,
      SecretsManager.get key default casting_type st =
        (cast value casting_type, st).
Proof.
  intros Hwf%reachable_wf Hb [v Hv].
  destruct (merged_present st secret_name key g v Hwf Hb Hv) as [value Hm].
  destruct (merged_Some_declared st key value Hwf Hm) as (holder & g' & Hin & Hb' & Hv').
  exists holder, g', value. repeat split; try done.
  intros default casting_type. by apply get_found.
Qed.

(** A new instance holds one empty bundle for each name given and none for
    any other name; until something is written or fetched, [get] finds no
    key at all. *)
Theorem new_instance_is_empty c names :
  let st := SecretsManager.__init__ c names in
  (∀ secret_name,
     bundle st secret_name = if decide (secret_name ∈ names) then Some ∅ else None) ∧
  (∀ key casting_type,
     SecretsManager.get key null casting_type st =
       (inl (KeyError (SecretsManager.not_found_message key)), st)) ∧
  (∀ key default casting_type,
     isinstance_Null default = false →
     SecretsManager.get key default casting_type st = (inr default, st)).
Proof.
  intros st. pose proof (wf_init c names) as Hwf. fold st in Hwf.
  pose proof (secret_names_init c names) as Hnames. fold st in Hnames.
  assert (∀ n g, bundle st n = Some g → g = ∅) as Hempty.
  { intros n g Hb. unfold bundle in Hb.
    destruct (odict_get (_secrets st) n) as [d|]; [|done]. cbn in Hb.
    pose proof (heap_init_empty c names) as Hh.
    by apply (proj1 (Forall_lookup _ _) Hh d g). }
  assert (∀ key, merged st key = None) as Hmiss.
  { intros key. apply merged_absent; [done|].
    intros n g ->%Hempty. apply lookup_empty. }
  split; [|split].
  - intros n. destruct (decide (n ∈ names)) as [Hin|Hin].
    + rewrite <- Hnames in Hin.
      destruct (proj2 (bundle_declared st n Hwf) Hin) as [g Hg].
      by rewrite Hg, (Hempty n g Hg).
    + destruct (bundle st n) eqn:Hb; [|done].
      exfalso. apply Hin. rewrite <- Hnames.
      apply (bundle_declared st n Hwf). by eexists.
  - intros key casting_type. by rewrite get_missing.
  - intros key default casting_type Hd. by rewrite get_missing, Hd.
Qed.

(** [set] writes one key of one bundle: the bundle named gains the entry,
    every other bundle is as before, and so is what the merged view holds
    under every other key. *)
Theorem set_touches_one_key st secret_name key value g :
  reachable st →
  bundle st secret_name = Some g →
  let st' := (SecretsManager.set secret_name key value st).2 in
  bundle st' secret_name = Some (<[key := value]> g) ∧
  (∀ other, other ≠ secret_name → bundle st' other = bundle st other) ∧
  (∀ key', key' ≠ key → merged st' key' = merged st key').
Proof.
  intros Hwf%reachable_wf Hb.
  destruct (odict_get (_secrets st) secret_name) as [d|] eqn:Hd;
    [|unfold bundle in Hb; by rewrite Hd in Hb].
  apply (bundle_total st secret_name d g Hwf Hd) in Hb.
  rewrite (set_declared st secret_name key value d Hd), Hb. cbn [snd].
  assert (d < length (heap st)) as Hlt
    by (apply (wf_bound _ Hwf); by eapply getitem_declared).
  split; [by apply bundle_store_eq|]. split.
  - intros other Hne. by apply (bundle_store_ne st secret_name other d).
  - intros key' Hne. unfold merged. cbn [heap _combined set_heap].
    apply chain_lookup_ext. intros d' _.
    destruct (decide (d' = d)) as [->|Hd'].
    + by rewrite list_lookup_total_insert_eq, lookup_insert_ne, Hb.
    + by rewrite list_lookup_total_insert_ne.
Qed.

(** A write to a bundle is shadowed while a bundle of higher precedence
    holds the key: [get] returns what it returned before the write. *)
Theorem lower_write_is_shadowed
    st pre secret_name post higher g key value old default casting_type :
  reachable st →
  declared_order (secret_names st) = pre ++ secret_name :: post →
  higher ∈ post →
  bundle st higher = Some g →
  g !! key = Some old →
  let st' := (SecretsManager.set secret_name key value st).2 in
  (SecretsManager.get key default casting_type st').1 =
    (SecretsManager.get key default casting_type st).1.
Proof.
  intros Hwf%reachable_wf Horder Hhigher Hg Hold.
  pose proof (wf_keys_NoDup st Hwf) as Hnd.
  pose proof Horder as Hkeys. rewrite <- (wf_names _ Hwf) in Hkeys.
  apply fmap_app_inv in Hkeys as (s1 & s2' & -> & Hs2 & Hs).
  symmetry in Hs2. apply fmap_cons_inv in Hs2 as ([n d] & s2 & Hn & -> & ->).
  cbn in Hn. subst n.
  assert (odict_get (_secrets st) secret_name = Some d) as Hd.
  { apply odict_get_elem; [done|]. rewrite Hs, elem_of_app, elem_of_cons. auto. }
  rewrite (set_declared st secret_name key value d Hd). cbn [snd].
  set (st' := set_heap _ st).
  assert (_combined st = reverse s2.*2 ++ d :: reverse s1.*2) as Hmaps.
  { destruct (wf_chain _ Hwf) as [[_ ->]|[Hnil _]];
      [|rewrite Hs in Hnil; by destruct s1].
    by rewrite Hs, fmap_app, fmap_cons, reverse_app, reverse_cons, <- app_assoc. }
  assert (d ∉ s2.*2) as Hfresh.
  { pose proof (wf_nodup _ Hwf) as Hv. rewrite Hs, fmap_app, fmap_cons in Hv.
    apply NoDup_app in Hv as (_ & _ & [Hd2 _]%NoDup_cons). done. }
  assert (is_Some (SecretsManager.chain_lookup (heap st) (reverse s2.*2) key)) as [w Hw].
  { apply chain_lookup_is_Some.
    apply list_elem_of_fmap in Hhigher as ([n dh] & -> & Hin). cbn in Hg.
    assert (odict_get (_secrets st) n = Some dh) as Hdh.
    { apply odict_get_elem; [done|]. rewrite Hs, elem_of_app, elem_of_cons. auto. }
    apply (bundle_total st n dh g Hwf Hdh) in Hg.
    exists dh. split; [|by rewrite Hg, Hold].
    rewrite elem_of_reverse. apply list_elem_of_fmap. by exists (n, dh). }
  assert (merged st key = Some w) as Hm.
  { unfold merged. by rewrite Hmaps, chain_lookup_app, Hw. }
  assert (merged st' key = Some w) as Hm'.
  { unfold merged. cbn [heap _combined st' set_heap].
    rewrite Hmaps, chain_lookup_app.
    rewrite (chain_lookup_ext (heap st)), Hw; [done|].
    intros d' Hd'. rewrite elem_of_reverse in Hd'.
    rewrite list_lookup_total_insert_ne; [done|]. by intros ->. }
  by rewrite (get_found st' key default casting_type w Hm'),
    (get_found st key default casting_type w Hm).
Qed.

(** [update] hands on what the client raises as it is: a [ClientError] of
    the store is not turned into the exception of the package, as [fetch]
    does; without an error of the client [update] succeeds. *)
Theorem update_surfaces_client_error st secret_name g payload :
  reachable st →
  bundle st secret_name = Some g →
  json_dumps g = inr payload →
  (SecretsManager.update secret_name st).1 =
    match update_secret (_client st) secret_name payload with
    | Some e => inl e
    | None => inr ()
    end.
Proof.
  intros Hwf%reachable_wf Hb Hdumps.
  destruct (odict_get (_secrets st) secret_name) as [d|] eqn:Hd;
    [|unfold bundle in Hb; by rewrite Hd in Hb].
  apply (bundle_total st secret_name d g Hwf Hd) in Hb.
  unfold SecretsManager.update, bind, SecretsManager._secrets_getitem,
    SecretsManager.client_update_secret.
  rewrite Hd, Hb, Hdumps.
  by destruct (update_secret (_client st) secret_name payload).
Qed.

End further_properties.

(** ** Refreshing, and the views *)

Section refresh_and_views.
Context {env : Externals}.
Implicit Types (st : state) (key secret_name : string) (value default : pyval).

Lemma fetch_keeps st :
  wf st →
  let st' := (SecretsManager.fetch st).2 in
  wf st' ∧ secret_names st' = secret_names st ∧
  (∀ n, fetched st' n = fetched st n).
Proof.
  intros Hwf st'. subst st'. unfold SecretsManager.fetch.
  pose proof (frame_fetch_loop (secret_names st) st Hwf) as Hfr.
  split; [by eapply wf_frame|]. split; [apply (frame_names _ _ Hfr)|].
  intros n. apply fetched_client, fetch_loop_client.
Qed.

(** Fetching again from an unchanged store changes nothing more: the second
    [fetch] ends as the first did and leaves every bundle as the first left
    it, whether the first succeeded or failed. *)
Theorem fetch_twice st :
  reachable st →
  let st1 := (SecretsManager.fetch st).2 in
  (SecretsManager.fetch st1).1 = (SecretsManager.fetch st).1 ∧
  (∀ n, bundle (SecretsManager.fetch st1).2 n = bundle st1 n).
Proof.
  intros Hwf%reachable_wf st1.
  destruct (fetch_keeps st Hwf) as (Hwf1 & Hnames1 & Hf1). fold st1 in Hwf1, Hnames1, Hf1.
  destruct (first_failure st (secret_names st))
    as [Hall|(pre & failing & post & e & Hnames & Hpre & He)].
  - destruct (fetch_loop_all_ok (secret_names st) st Hwf)
      as (st' & Hrun & _ & _ & _ & Hin & _); [done..|].
    destruct (fetch_loop_all_ok (secret_names st) st1 Hwf1)
      as (st2 & Hrun2 & _ & _ & _ & Hin2 & Hout2).
    { intros n. by rewrite Hnames1. }
    { intros n Hn. rewrite Hf1. by apply Hall. }
    assert (st1 = st') as Hst1
      by (unfold st1, SecretsManager.fetch; by rewrite Hrun).
    unfold SecretsManager.fetch at 1 3. rewrite Hnames1, Hrun2.
    unfold SecretsManager.fetch. rewrite Hrun. split; [done|]. cbn [snd].
    intros n. destruct (decide (n ∈ secret_names st)) as [Hn|Hn].
    + destruct (Hall n Hn) as [new Hnew].
      rewrite (Hin2 n new Hn) by by rewrite Hf1.
      rewrite Hst1. symmetry. by apply Hin.
    + by apply Hout2.
  - assert (∀ n, n ∈ pre ++ failing :: post → n ∈ secret_names st) as Hdecl
      by (intros n; by rewrite Hnames).
    destruct (fetch_loop_fails_at pre failing post st e Hwf Hdecl Hpre He)
      as (st' & Hrun & Hempty & Hin & _).
    destruct (fetch_loop_fails_at pre failing post st1 e Hwf1)
      as (st2 & Hrun2 & Hempty2 & Hin2 & Hout2).
    { intros n Hn. rewrite Hnames1. by apply Hdecl. }
    { intros n Hn. rewrite Hf1. by apply Hpre. }
    { by rewrite Hf1. }
    assert (st1 = st') as Hst1
      by (unfold st1, SecretsManager.fetch; by rewrite Hnames, Hrun).
    unfold SecretsManager.fetch at 1 3. rewrite Hnames1, Hnames, Hrun2.
    unfold SecretsManager.fetch. rewrite Hnames, Hrun. split; [done|]. cbn [snd].
    intros n. destruct (decide (n = failing)) as [->|Hne].
    + by rewrite Hempty2, Hst1, Hempty.
    + destruct (decide (n ∈ pre)) as [Hn|Hn].
      * destruct (Hpre n Hn) as [new Hnew].
        rewrite (Hin2 n new Hn Hne) by by rewrite Hf1.
        rewrite Hst1. symmetry. by apply Hin.
      * by apply Hout2.
Qed.

(** After a [fetch] in which every name is fetched, [get] answers from the
    store: it returns the value, cast, of the remote mapping that comes last
    in the order of the names among those holding the key. *)
Theorem get_after_fetch
    st pre secret_name post key g value default casting_type :
  reachable st →
  (∀ n, n ∈ secret_names st → ∃ new, fetched st n = inr new) →
  declared_order (secret_names st) = pre ++ secret_name :: post →
  fetched st secret_name = inr g →
  g !! key = Some value →
  (∀ other g', other ∈ post → fetched st other = inr g' → g' !! key = None) →
  let st' := (SecretsManager.fetch st).2 in
  SecretsManager.get key default casting_type st' = (cast value casting_type, st').
Proof.
  intros Hwf%reachable_wf Hall Horder Hg Hv Hpost.
  destruct (fetch_loop_all_ok (secret_names st) st Hwf)
    as (st' & Hrun & Hwf' & Hfr & _ & Hin & _); [done..|].
  unfold SecretsManager.fetch. rewrite Hrun. cbn [snd].
  assert (∀ n, n ∈ pre ++ secret_name :: post → n ∈ secret_names st) as Hdecl
    by (intros n; rewrite <- Horder; apply elem_of_declared_order).
  apply get_found.
  apply (merged_precedence st' pre secret_name post key g value Hwf').
  - by rewrite (frame_secrets _ _ Hfr), (wf_names _ Hwf).
  - apply Hin; [|done]. apply Hdecl. rewrite elem_of_app, elem_of_cons. auto.
  - done.
  - intros other g' Hother Hb.
    assert (other ∈ secret_names st) as Hn
      by (apply Hdecl; rewrite elem_of_app, elem_of_cons; auto).
    destruct (Hall other Hn) as [new Hnew].
    rewrite (Hin other new Hn Hnew) in Hb. simplify_eq. by eapply Hpost.
Qed.

(** The bundles are fixed at construction: in every state the instance
    reaches, exactly the names given to [__init__] have a bundle, and no
    method changes the names. *)
Theorem bundles_fixed_at_construction st :
  reachable st →
  (∀ secret_name, is_Some (bundle st secret_name) ↔ secret_name ∈ secret_names st) ∧
  (∀ secret_name key value,
     secret_names (SecretsManager.set secret_name key value st).2 = secret_names st) ∧
  secret_names (SecretsManager.fetch st).2 = secret_names st ∧
  (∀ secret_name,
     secret_names (SecretsManager.update secret_name st).2 = secret_names st).
Proof.
  intros Hwf%reachable_wf. split; [intros n; by apply bundle_declared|].
  split; [|split].
  - intros n key value. apply (frame_names _ _ (frame_set st n key value)).
  - apply (frame_names _ _ (frame_fetch_loop (secret_names st) st Hwf)).
  - intros n. apply (frame_names _ _ (frame_update st n)).
Qed.

Lemma elem_of_ChainMap_iter h maps key :
  key ∈ SecretsManager.ChainMap_iter h maps ↔
  ∃ d, d ∈ maps ∧ is_Some ((h !!! d) !! key).
Proof.
  unfold SecretsManager.ChainMap_iter.
  assert (∀ (l : list nat) (acc : gset string),
            key ∈ foldl (λ d m, d ∪ dom (h !!! m)) acc l ↔
            key ∈ acc ∨ ∃ d, d ∈ l ∧ is_Some ((h !!! d) !! key)) as Hfold.
  { induction l as [|m l IH]; intros acc; cbn [foldl].
    - split; [by left|]. intros [?|(d & []%elem_of_nil & _)]. done.
    - rewrite IH, elem_of_union, elem_of_dom. split.
      + intros [[?|?]|(d & Hd & ?)]; [by left| |].
        * right. exists m. split; [apply elem_of_cons; by left|done].
        * right. exists d. split; [apply elem_of_cons; by right|done].
      + intros [?|(d & [->|Hd]%elem_of_cons & ?)]; [by left; left|by left; right|].
        right. by exists d. }
  rewrite Hfold. split.
  - intros [[]%elem_of_empty|(d & Hd & ?)]. exists d. by rewrite <- elem_of_reverse.
  - intros (d & Hd & ?). right. exists d. by rewrite elem_of_reverse.
Qed.

(** [keys()] holds exactly the keys that [get] finds, which are the keys
    held by some declared bundle. *)
Theorem keys_are_the_held_keys st key :
  reachable st →
  (key ∈ SecretsManager.keys st ↔ is_Some (merged st key)) ∧
  (key ∈ SecretsManager.keys st ↔
   ∃ secret_name g, bundle st secret_name = Some g ∧ is_Some (g !! key)).
Proof.
  intros Hwf%reachable_wf.
  assert (key ∈ SecretsManager.keys st ↔ is_Some (merged st key)) as Hkeys.
  { unfold SecretsManager.keys, merged.
    by rewrite elem_of_ChainMap_iter, chain_lookup_is_Some. }
  split; [done|]. rewrite Hkeys. split.
  - intros [value (n & g & _ & Hb & Hv)%merged_Some_declared]; [|done].
    exists n, g. by rewrite Hv.
  - intros (n & g & Hb & [value Hv]). by eapply merged_present.
Qed.

(** [items()] pairs every key of the merged view, once, with the value
    that a lookup of the key gives. *)
Theorem items_agree_with_lookup st :
  (∀ key value,
     (key, value) ∈ SecretsManager.items st ↔ merged st key = Some value) ∧
  NoDup (SecretsManager.items st).*1 ∧
  length (SecretsManager.items st) = size (SecretsManager.keys st).
Proof.
  unfold SecretsManager.items.
  set (look := λ key, (key,.) <$> SecretsManager.chain_lookup (heap st) (_combined st) key).
  assert (∀ l : list string, (omap look l).*1 `sublist_of` l) as Hsub.
  { induction l as [|k l IH]; [done|]. cbn. unfold look at 1.
    destruct (SecretsManager.chain_lookup (heap st) (_combined st) k); cbn.
    - by apply sublist_skip.
    - by apply sublist_cons. }
  assert (∀ l : list string,
            (∀ k, k ∈ l → k ∈ SecretsManager.keys st) →
            length (omap look l) = length l) as Hlen.
  { induction l as [|k l IH]; intros Hl; [done|]. cbn. unfold look at 1.
    assert (k ∈ SecretsManager.keys st) as Hk by (apply Hl, elem_of_cons; by left).
    unfold SecretsManager.keys in Hk.
    rewrite elem_of_ChainMap_iter, <- chain_lookup_is_Some in Hk.
    destruct Hk as [v ->]. cbn. rewrite IH; [done|].
    intros k' Hk'. apply Hl, elem_of_cons. by right. }
  split; [|split].
  - intros key value. rewrite list_elem_of_omap. unfold look, merged. split.
    + intros (k & _ & Hk).
      destruct (SecretsManager.chain_lookup (heap st) (_combined st) k) eqn:Hc;
        by simplify_eq/=.
    + intros Hm. exists key. split; [|by rewrite Hm].
      apply elem_of_elements. unfold SecretsManager.keys.
      rewrite elem_of_ChainMap_iter, <- chain_lookup_is_Some. by rewrite Hm.
  - apply (sublist_NoDup _ (elements (SecretsManager.keys st)));
      [apply NoDup_elements | apply Hsub].
  - rewrite Hlen; [done|]. intros k. apply elem_of_elements.
Qed.

(** [values()] holds the values that lookups of the keys of the merged view
    give, one for each key. *)
Theorem values_agree_with_lookup st :
  (∀ value,
     value ∈ SecretsManager.values st ↔ ∃ key, merged st key = Some value) ∧
  SecretsManager.values st = (SecretsManager.items st).*2.
Proof.
  unfold SecretsManager.values, SecretsManager.items. split.
  - intros value. rewrite list_elem_of_omap. unfold merged. split.
    + intros (k & _ & Hk). by exists k.
    + intros (k & Hk). exists k. split; [|done].
      apply elem_of_elements. unfold SecretsManager.keys.
      rewrite elem_of_ChainMap_iter, <- chain_lookup_is_Some. by rewrite Hk.
  - induction (elements (SecretsManager.keys st)) as [|k l IH]; [done|]. cbn.
    destruct (SecretsManager.chain_lookup (heap st) (_combined st) k); cbn;
      by rewrite IH.
Qed.

End refresh_and_views.

(** ** Failures of a refresh *)

Section refresh_failures.
Context {env : Externals}.
Implicit Types (st : state) (key secret_name : string) (value default : pyval).

(** After a [fetch] that failed, the keys of the bundle whose fetch failed
    are gone from the merged view: a key that neither a refreshed bundle
    nor a bundle not reached holds is no longer found, whatever the failing
    bundle held before. *)
Theorem failed_fetch_hides_keys
    st pre failing post e key default casting_type :
  reachable st →
  secret_names st = pre ++ failing :: post →
  (∀ n, n ∈ pre → ∃ new, fetched st n = inr new) →
  fetched st failing = inl e →
  (∀ n new, n ∈ pre → fetched st n = inr new → new !! key = None) →
  (∀ n g, n ∉ pre → n ≠ failing → bundle st n = Some g → g !! key = None) →
  let st' := (SecretsManager.fetch st).2 in
  SecretsManager.get key default casting_type st' =
    if isinstance_Null default
    then (inl (KeyError (SecretsManager.not_found_message key)), st')
    else (inr default, st').
Proof.
  intros Hwf%reachable_wf Hnames Hpre He Hremote Hlocal st'.
  destruct (fetch_keeps st Hwf) as (Hwf' & _ & _). fold st' in Hwf'.
  assert (∀ n, n ∈ pre ++ failing :: post → n ∈ secret_names st) as Hdecl
    by (intros n; by rewrite Hnames).
  destruct (fetch_loop_fails_at pre failing post st e Hwf Hdecl Hpre He)
    as (st1 & Hrun & Hempty & Hin & Hout).
  assert (st' = st1) as Hst'
    by (unfold st', SecretsManager.fetch; by rewrite Hnames, Hrun).
  apply get_missing, merged_absent; [done|]. rewrite Hst'.
  intros n g Hb. destruct (decide (n = failing)) as [->|Hne].
  - rewrite Hempty in Hb. simplify_eq. apply lookup_empty.
  - destruct (decide (n ∈ pre)) as [Hn|Hn].
    + destruct (Hpre n Hn) as [new Hnew].
      rewrite (Hin n new Hn Hne Hnew) in Hb. simplify_eq. by eapply Hremote.
    + rewrite (Hout n Hn Hne) in Hb. by eapply Hlocal.
Qed.

(** Only a [ClientError] is translated: when the store answers and the
    text it returns cannot be decoded, [fetch] ends with the error of the
    decoder itself, and the bundle concerned is left empty. *)
Theorem fetch_passes_decoding_error st pre failing post response text e :
  reachable st →
  secret_names st = pre ++ failing :: post →
  (∀ n, n ∈ pre → ∃ new, fetched st n = inr new) →
  get_secret_value (_client st) failing = inr response →
  SecretString response = Some text →
  json_loads text = inl e →
  (SecretsManager.fetch st).1 = inl e ∧
  bundle (SecretsManager.fetch st).2 failing = Some ∅.
Proof.
  intros Hwf%reachable_wf Hnames Hpre Hresponse Htext He.
  assert (fetched st failing = inl e) as Hfail.
  { unfold fetched, SecretsManager._get_secrets. by rewrite Hresponse, Htext, He. }
  assert (∀ n, n ∈ pre ++ failing :: post → n ∈ secret_names st) as Hdecl
    by (intros n; by rewrite Hnames).
  destruct (fetch_loop_fails_at pre failing post st e Hwf Hdecl Hpre Hfail)
    as (st1 & Hrun & Hempty & _).
  unfold SecretsManager.fetch. by rewrite Hnames, Hrun.
Qed.

End refresh_failures.

(** ** The further properties on concrete instances *)

Lemma example_layers_names n g :
  bundle example_layers n = Some g → n = "base" ∨ n = "override".
Proof.
  intros Hb. destruct (decide (n = "base")) as [->|?]; [by left|].
  destruct (decide (n = "override")) as [->|?]; [by right|].
  exfalso. unfold bundle in Hb.
  change (_secrets example_layers) with [("base", 0); ("override", 1)] in Hb.
  cbn in Hb. by rewrite !decide_False in Hb by done.
Qed.

Lemma example_denying_store_reachable :
  reachable (env := example_externals) example_denying_store.
Proof. apply reachable_store, example_layers_reachable. Qed.

Lemma example_empty_base_store_reachable :
  reachable (env := example_externals) example_empty_base_store.
Proof. apply reachable_store, example_layers_reachable. Qed.

Lemma example_corrupt_store_reachable :
  reachable (env := example_externals) example_corrupt_store.
Proof. apply reachable_store, example_layers_reachable. Qed.

(** Names "a", "b", "a": the bundle "b" ranks last and decides. *)
Lemma precedence_by_first_occurrence_witness :
  SecretsManager.get (env := example_externals) "k" null py_str example_repeated
  = (inr (PyStr "2"), example_repeated).
Proof.
  apply (precedence_by_first_occurrence (env := example_externals) example_repeated
           ["a"] "b" [] "k" {["k" := PyStr "2"]} (PyStr "2") null py_str).
  - apply example_repeated_reachable.
  - by_computation.
  - by_computation.
  - by_computation.
  - intros other g' Hother. by apply elem_of_nil in Hother.
Defined.

Lemma held_key_is_found_witness :
  ∃ value, ∀ default casting_type,
    SecretsManager.get (env := example_externals) "a" default casting_type example_layers
    = (cast (Externals := example_externals) value casting_type, example_layers).
Proof.
  destruct (held_key_is_found (env := example_externals) example_layers
              "base" "a" {["a" := PyInt 1; "b" := PyInt 2]})
    as (holder & g' & value & _ & _ & _ & Hget).
  - apply example_layers_reachable.
  - by_computation.
  - exists (PyInt 1). by_computation.
  - by exists value.
Defined.

Lemma new_instance_is_empty_witness :
  SecretsManager.get (env := example_externals) "a" PyNone py_int
    (SecretsManager.__init__ (example_client []) ["base"; "override"])
  = (inr PyNone, SecretsManager.__init__ (example_client []) ["base"; "override"]).
Proof.
  destruct (new_instance_is_empty (env := example_externals)
              (example_client []) ["base"; "override"]) as (_ & _ & Hdefault).
  by apply Hdefault.
Defined.

Lemma set_touches_one_key_witness :
  bundle (SecretsManager.set "base" "a" (PyInt 9) example_layers).2 "override"
  = bundle example_layers "override" ∧
  merged (SecretsManager.set "base" "a" (PyInt 9) example_layers).2 "b"
  = merged example_layers "b".
Proof.
  destruct (set_touches_one_key (env := example_externals) example_layers
              "base" "a" (PyInt 9) {["a" := PyInt 1; "b" := PyInt 2]})
    as (_ & Hother & Hkeys).
  - apply example_layers_reachable.
  - by_computation.
  - split; [by apply Hother | by apply Hkeys].
Defined.

(** [override] holds "b": a write of "b" to [base] does not show. *)
Lemma lower_write_is_shadowed_witness :
  (SecretsManager.get (env := example_externals) "b" null pass_through
     (SecretsManager.set "base" "b" (PyInt 9) example_layers).2).1
  = (SecretsManager.get (env := example_externals) "b" null pass_through
       example_layers).1.
Proof.
  apply (lower_write_is_shadowed (env := example_externals) example_layers
           [] "base" ["override"] "override" {["b" := PyInt 3]} "b" (PyInt 9)
           (PyInt 3) null pass_through).
  - apply example_layers_reachable.
  - by_computation.
  - apply elem_of_cons. by left.
  - by_computation.
  - by_computation.
Defined.

Lemma update_surfaces_client_error_witness :
  (SecretsManager.update (env := example_externals) "base" example_denying_store).1
  = inl (ClientError "AccessDeniedException").
Proof.
  apply (update_surfaces_client_error (env := example_externals)
           example_denying_store "base" {["a" := PyInt 1; "b" := PyInt 2]} "keys:a,b").
  - apply example_denying_store_reachable.
  - by_computation.
  - by_computation.
Defined.

Lemma fetch_twice_witness :
  (SecretsManager.fetch (env := example_externals)
     (SecretsManager.fetch (env := example_externals) example_partial_store).2).1
  = (SecretsManager.fetch (env := example_externals) example_partial_store).1.
Proof.
  apply (fetch_twice (env := example_externals) example_partial_store).
  apply example_partial_store_reachable.
Defined.

(** The store holds an empty [base] and [override = {b: 3}]. *)
Lemma get_after_fetch_witness :
  SecretsManager.get (env := example_externals) "b" null pass_through
    (SecretsManager.fetch (env := example_externals) example_full_store).2
  = (inr (PyInt 3),
     (SecretsManager.fetch (env := example_externals) example_full_store).2).
Proof.
  apply (get_after_fetch (env := example_externals) example_full_store
           ["base"] "override" [] "b" {["b" := PyInt 3]} (PyInt 3) null pass_through).
  - apply example_full_store_reachable.
  - intros n Hn. names_cases Hn.
    + exists ∅. by_computation.
    + exists {["b" := PyInt 3]}. by_computation.
  - by_computation.
  - by_computation.
  - by_computation.
  - intros other g' Hother. by apply elem_of_nil in Hother.
Defined.

Lemma bundles_fixed_at_construction_witness :
  is_Some (bundle example_layers "override") ∧
  ¬ is_Some (bundle example_layers "staging").
Proof.
  destruct (bundles_fixed_at_construction (env := example_externals) example_layers)
    as (Hdeclared & _).
  - apply example_layers_reachable.
  - split.
    + apply Hdeclared. apply (bool_decide_unpack _). by vm_compute.
    + rewrite Hdeclared. apply (bool_decide_unpack _). by vm_compute.
Defined.

Lemma keys_are_the_held_keys_witness :
  "a" ∈ SecretsManager.keys example_layers.
Proof.
  destruct (keys_are_the_held_keys (env := example_externals) example_layers "a")
    as (_ & Hheld).
  - apply example_layers_reachable.
  - apply Hheld. exists "base", {["a" := PyInt 1; "b" := PyInt 2]}.
    split; [by_computation|]. exists (PyInt 1). by_computation.
Defined.

Lemma items_agree_with_lookup_witness :
  ("b", PyInt 3) ∈ SecretsManager.items example_layers.
Proof.
  apply (items_agree_with_lookup example_layers). by_computation.
Defined.

Lemma values_agree_with_lookup_witness :
  PyInt 3 ∈ SecretsManager.values example_layers.
Proof.
  apply (values_agree_with_lookup example_layers). exists "b". by_computation.
Defined.

(** The store holds an empty [base] and raises for [override]: after the
    failed [fetch] the key "b", which both bundles held, is not found. *)
Lemma failed_fetch_hides_keys_witness :
  SecretsManager.get (env := example_externals) "b" PyNone py_int
    (SecretsManager.fetch (env := example_externals) example_empty_base_store).2
  = (inr PyNone,
     (SecretsManager.fetch (env := example_externals) example_empty_base_store).2).
Proof.
  apply (failed_fetch_hides_keys (env := example_externals) example_empty_base_store
           ["base"] "override" []
           (SecretsManagerException_from_code "ResourceNotFoundException")
           "b" PyNone py_int).
  - apply example_empty_base_store_reachable.
  - reflexivity.
  - intros n Hn. names_cases Hn. exists ∅. by_computation.
  - by_computation.
  - intros n new Hn Hnew. names_cases Hn.
    vm_compute in Hnew. injection Hnew as <-. reflexivity.
  - intros n g Hpre Hne Hb. exfalso.
    destruct (example_layers_names n g Hb) as [->| ->]; [|done].
    apply Hpre, elem_of_cons. by left.
Defined.

Lemma fetch_passes_decoding_error_witness :
  (SecretsManager.fetch (env := example_externals) example_corrupt_store).1
  = inl JSONDecodeError ∧
  bundle (SecretsManager.fetch (env := example_externals) example_corrupt_store).2 "override"
  = Some ∅.
Proof.
  apply (fetch_passes_decoding_error (env := example_externals) example_corrupt_store
           ["base"] "override" []
           {| SecretString := Some "no document"; SecretBinary := None |}
           "no document" JSONDecodeError).
  - apply example_corrupt_store_reachable.
  - reflexivity.
  - intros n Hn. names_cases Hn.
    exists {["a" := PyInt 1; "b" := PyInt 2]}. by_computation.
  - by_computation.
  - reflexivity.
  - by_computation.
Defined.
